(** * mkcert: a shallow embedding of the Go wrapper around the mkcert CLI

    The development follows [mkcert.go].  Go strings and byte slices are
    both sequences of bytes and are modelled as [list byte].  The pieces of
    the Go standard library that [Exec] relies on ([unicode/utf8], [regexp],
    [bytes], [path/filepath] on a Unix system, [errors], [fmt.Errorf] and
    [os/exec]) are modelled in modules named after their packages, after
    their documented behaviour. *)

From Stdlib Require Import Strings.String Strings.Byte Numbers.DecimalString.
From Stdlib Require Import List ZArith Lia Bool Arith Sorting.Permutation.
Import ListNotations.

(** ** Byte strings *)

Definition bytes := list byte.

(** A Go string literal; the double quote is written [dq]. *)
Definition str (s : string) : bytes := list_byte_of_string s.

Definition dq : byte := x22.
Definition nl : byte := x0a.
Definition slash : byte := x2f.
Definition dot : byte := x2e.

Definition byteZ (b : byte) : Z := Z.of_N (Byte.to_N b).

Fixpoint bytes_eqb (a b : bytes) : bool :=
  match a, b with
  | [], [] => true
  | x :: a', y :: b' => Byte.eqb x y && bytes_eqb a' b'
  | _, _ => false
  end.

(** ** unicode/utf8 *)

Module Utf8.

Local Open Scope Z_scope.

Definition rune := Z.

Definition RuneError : rune := 0xFFFD.

Definition locb : Z := 0x80.
Definition hicb : Z := 0xBF.
Definition maskx : Z := 0x3F.
Definition mask2 : Z := 0x1F.
Definition mask3 : Z := 0x0F.
Definition mask4 : Z := 0x07.

(** Information about the first byte of an encoding: the [first] table
    together with [acceptRanges]. *)
Inductive lead : Type :=
| as_ascii
| xx_invalid
| seq (size : nat) (lo hi : Z).

Definition first (p0 : Z) : lead :=
  if p0 <? 0x80 then as_ascii
  else if p0 <? 0xC2 then xx_invalid
  else if p0 <? 0xE0 then seq 2 locb hicb
  else if p0 =? 0xE0 then seq 3 0xA0 hicb
  else if p0 <? 0xED then seq 3 locb hicb
  else if p0 =? 0xED then seq 3 locb 0x9F
  else if p0 <? 0xF0 then seq 3 locb hicb
  else if p0 =? 0xF0 then seq 4 0x90 hicb
  else if p0 <? 0xF4 then seq 4 locb hicb
  else if p0 =? 0xF4 then seq 4 locb 0x8F
  else xx_invalid.

Definition is_cont (b : Z) : bool := (locb <=? b) && (b <=? hicb).

(** [DecodeRune p] is the first rune of [p] and its width in bytes; an
    invalid encoding is [RuneError] of width 1, the empty input
    [RuneError] of width 0. *)
Definition DecodeRune (p : bytes) : rune * nat :=
  match p with
  | [] => (RuneError, 0%nat)
  | c0 :: t =>
      let p0 := byteZ c0 in
      match first p0 with
      | as_ascii => (p0, 1%nat)
      | xx_invalid => (RuneError, 1%nat)
      | seq sz lo hi =>
          match t with
          | [] => (RuneError, 1%nat)
          | c1 :: t1 =>
              let b1 := byteZ c1 in
              if (b1 <? lo) || (hi <? b1) then (RuneError, 1%nat)
              else if (sz <=? 2)%nat then
                (Z.lor (Z.shiftl (Z.land p0 mask2) 6) (Z.land b1 maskx), 2%nat)
              else
                match t1 with
                | [] => (RuneError, 1%nat)
                | c2 :: t2 =>
                    let b2 := byteZ c2 in
                    if negb (is_cont b2) then (RuneError, 1%nat)
                    else if (sz <=? 3)%nat then
                      (Z.lor (Z.lor (Z.shiftl (Z.land p0 mask3) 12)
                                    (Z.shiftl (Z.land b1 maskx) 6))
                             (Z.land b2 maskx), 3%nat)
                    else
                      match t2 with
                      | [] => (RuneError, 1%nat)
                      | c3 :: _ =>
                          let b3 := byteZ c3 in
                          if negb (is_cont b3) then (RuneError, 1%nat)
                          else
                            (Z.lor (Z.lor (Z.lor (Z.shiftl (Z.land p0 mask4) 18)
                                                 (Z.shiftl (Z.land b1 maskx) 12))
                                          (Z.shiftl (Z.land b2 maskx) 6))
                                   (Z.land b3 maskx), 4%nat)
                      end
                end
          end
      end
  end.

End Utf8.

(** ** regexp

    The fragment of RE2 syntax that the two patterns of [mkcert.go] use,
    with the leftmost-first semantics of the Go package: the match
    returned is the one a backtracking search finds first.  Matching
    proceeds rune by rune, each byte of an invalid UTF-8 sequence counting
    as [RuneError]. *)

Module Regexp.

Import Utf8.

Inductive regex : Type :=
| EmptyMatch                       (* the empty pattern *)
| Char (c : rune)                  (* a literal character *)
| AnyCharNotNL                     (* .      *)
| CharClass (cs : list rune)       (* [...]  *)
| Concat (r1 r2 : regex)           (* r1r2   *)
| PlusLazy (r : regex)             (* r+?    *)
| Capture (i : nat) (r : regex).   (* (r), the i-th group *)

(** The literal characters of an ASCII string, one after the other. *)
Definition Literal (l : bytes) : regex :=
  fold_right (fun c r => Concat (Char (byteZ c)) r) EmptyMatch l.

Definition Concats (rs : list regex) : regex :=
  fold_right Concat EmptyMatch rs.

Fixpoint NumSubexp (r : regex) : nat :=
  match r with
  | EmptyMatch | Char _ | AnyCharNotNL | CharClass _ => 0
  | Concat r1 r2 => Nat.max (NumSubexp r1) (NumSubexp r2)
  | PlusLazy r1 => NumSubexp r1
  | Capture i r1 => Nat.max i (NumSubexp r1)
  end.

(** Submatches: index 0 is the whole match, index [i] the [i]-th group. *)
Definition caps := list bytes.

Fixpoint set_cap (i : nat) (v : bytes) (c : caps) : caps :=
  match i, c with
  | _, [] => []
  | O, _ :: c' => v :: c'
  | S i', x :: c' => x :: set_cap i' v c'
  end.

Definition result := option (bytes * caps).
Definition cont := bytes -> caps -> result.

(** Consume one rune that satisfies [ok]. *)
Definition step (ok : rune -> bool) (s : bytes) (c : caps) (k : cont) : result :=
  match s with
  | [] => None
  | _ :: _ =>
      let '(r, n) := DecodeRune s in
      if ok r then k (skipn n s) c else None
  end.

(** The text consumed between the input [s] and its suffix [s']. *)
Definition consumed (s s' : bytes) : bytes :=
  firstn (length s - length s') s.

(** [exec r s c k]: match [r] at the start of [s], then continue with
    [k] on the rest; alternatives are tried in priority order and the
    first success is returned.  The loop of [r+?] first tries to stop
    after each iteration; it is bounded by the length of the input, which
    iterations that consume a rune never exhaust. *)
Fixpoint exec (r : regex) (s : bytes) (c : caps) (k : cont) {struct r} : result :=
  match r with
  | EmptyMatch => k s c
  | Char x => step (Z.eqb x) s c k
  | AnyCharNotNL => step (fun y => negb (Z.eqb y (byteZ nl))) s c k
  | CharClass cs => step (fun y => existsb (Z.eqb y) cs) s c k
  | Concat r1 r2 => exec r1 s c (fun s' c' => exec r2 s' c' k)
  | PlusLazy r1 =>
      (fix loop (fuel : nat) (s : bytes) (c : caps) {struct fuel} : result :=
         match fuel with
         | O => None
         | S fuel' =>
             exec r1 s c (fun s' c' =>
               match k s' c' with
               | Some res => Some res
               | None => loop fuel' s' c'
               end)
         end) (S (length s)) s c
  | Capture i r1 =>
      exec r1 s c (fun s' c' => k s' (set_cap i (consumed s s') c'))
  end.

(** A match of [r] that starts exactly at the beginning of [s]. *)
Definition match_here (r : regex) (s : bytes) : result :=
  exec r s (repeat [] (S (NumSubexp r))) (fun s' c' => Some (s', c')).

(** The unanchored search: start positions are tried from the left, one
    rune at a time; [fuel] bounds the number of positions. *)
Fixpoint search (fuel : nat) (r : regex) (s : bytes) : list bytes :=
  match match_here r s with
  | Some (s', c') => set_cap 0 (consumed s s') c'
  | None =>
      match fuel, s with
      | S fuel', _ :: _ => search fuel' r (skipn (snd (DecodeRune s)) s)
      | _, _ => []
      end
  end.

(** [FindSubmatch]: nil when there is no match, otherwise the leftmost
    match and the text of its groups. *)
Definition FindSubmatch (r : regex) (b : bytes) : list bytes :=
  search (length b) r b.

End Regexp.

(** ** bytes and strings *)

Module BytesPkg.

Local Open Scope Z_scope.

Fixpoint HasPrefix (s prefix : bytes) : bool :=
  match prefix, s with
  | [], _ => true
  | _ :: _, [] => false
  | p :: prefix', c :: s' => Byte.eqb c p && HasPrefix s' prefix'
  end.

(** The index of the first instance of [sep] in [s], or -1. *)
Fixpoint Index (s sep : bytes) : Z :=
  if HasPrefix s sep then 0
  else match s with
       | [] => -1
       | _ :: s' => let i := Index s' sep in if i <? 0 then -1 else i + 1
       end.

Definition Contains (b subslice : bytes) : bool :=
  negb (Index b subslice =? -1).

(** [strings.Join]. *)
Fixpoint Join (elems : list bytes) (sep : bytes) : bytes :=
  match elems with
  | [] => []
  | [e] => e
  | e :: rest => e ++ sep ++ Join rest sep
  end.

End BytesPkg.

(** ** path/filepath, on a Unix system: the separator is the slash and
    there are no volume names. *)

Module Filepath.

Definition Separator : byte := slash.

Definition IsPathSeparator (c : byte) : bool := Byte.eqb c Separator.

Definition IsAbs (path : bytes) : bool := BytesPkg.HasPrefix path [slash].

(** [r == n || IsPathSeparator(path[r])] for the text [rest = path[r:]]. *)
Definition end_or_sep (rest : bytes) : bool :=
  match rest with
  | [] => true
  | c :: _ => IsPathSeparator c
  end.

(** The backtracking of a [..] element in the output buffer:
    [out.w--; for out.w > dotdot && !IsPathSeparator(out.index(out.w)) { out.w-- }].
    The buffer is given reversed, split into the byte at index [out.w]
    and the bytes before it. *)
Fixpoint unwind (at_w : byte) (before : bytes) (dotdot : nat) : bytes :=
  match before with
  | [] => []
  | c :: before' =>
      if (dotdot <? length before)%nat && negb (IsPathSeparator at_w)
      then unwind c before' dotdot
      else before
  end.

Definition backtrack (buf : bytes) (dotdot : nat) : bytes :=
  match rev buf with
  | [] => buf
  | c :: before => rev (unwind c before dotdot)
  end.

(** The bytes of a path element, up to the next separator, and the rest. *)
Fixpoint element (rest : bytes) : bytes * bytes :=
  match rest with
  | [] => ([], [])
  | c :: rest' =>
      if IsPathSeparator c then ([], rest)
      else let '(e, r) := element rest' in (c :: e, r)
  end.

(** The main loop of [Clean]: [rest] is [path[r:]], [buf] the output
    written so far ([out.w] is its length). *)
Fixpoint clean_loop (fuel : nat) (rooted : bool) (rest buf : bytes)
         (dotdot : nat) : bytes :=
  match fuel, rest with
  | O, _ => buf
  | _, [] => buf
  | S fuel', c :: rest1 =>
      if IsPathSeparator c then
        (* empty path element *)
        clean_loop fuel' rooted rest1 buf dotdot
      else if Byte.eqb c dot && end_or_sep rest1 then
        (* . element *)
        clean_loop fuel' rooted rest1 buf dotdot
      else if Byte.eqb c dot && Byte.eqb (hd slash rest1) dot
              && end_or_sep (tl rest1) then
        (* .. element: remove to last separator *)
        let rest2 := tl rest1 in
        if (dotdot <? length buf)%nat then
          clean_loop fuel' rooted rest2 (backtrack buf dotdot) dotdot
        else if negb rooted then
          let buf1 := if (0 <? length buf)%nat then buf ++ [Separator] else buf in
          let buf2 := buf1 ++ [dot; dot] in
          clean_loop fuel' rooted rest2 buf2 (length buf2)
        else
          clean_loop fuel' rooted rest2 buf dotdot
      else
        (* real path element: add slash if needed, copy element *)
        let buf1 :=
          if (rooted && negb (length buf =? 1)%nat)
             || (negb rooted && negb (length buf =? 0)%nat)
          then buf ++ [Separator] else buf in
        let '(e, rest') := element rest in
        clean_loop fuel' rooted rest' (buf1 ++ e) dotdot
  end.

Definition Clean (path : bytes) : bytes :=
  match path with
  | [] => [dot]
  | c :: _ =>
      let rooted := IsPathSeparator c in
      let out :=
        if rooted then clean_loop (length path) rooted (tl path) [Separator] 1
        else clean_loop (length path) rooted path [] 0 in
      (* Turn empty string into "." *)
      match out with
      | [] => [dot]
      | _ :: _ => out
      end
  end.

(** [Join] ignores empty elements and cleans the result. *)
Fixpoint Join (elem : list bytes) : bytes :=
  match elem with
  | [] => []
  | e :: rest =>
      match e with
      | [] => Join rest
      | _ :: _ => Clean (BytesPkg.Join elem [Separator])
      end
  end.

End Filepath.

(** ** errors, fmt.Errorf and os/exec *)

Module Errors.

(** The dynamic types of the error values that occur here. *)
Inductive error : Type :=
| errorString (s : bytes)                (* errors.New; fmt.Errorf without %w *)
| wrapError (msg : bytes) (err : error)  (* fmt.Errorf with %w *)
| ExitError (status : Z) (Stderr : bytes). (* *exec.ExitError *)

Definition New (text : bytes) : error := errorString text.

Definition itoa (z : Z) : bytes := str (NilZero.string_of_int (Z.to_int z)).

(** The [Error] method. *)
Definition Error (e : error) : bytes :=
  match e with
  | errorString s => s
  | wrapError msg _ => msg
  | ExitError status _ => str "exit status " ++ itoa status
  end.

Definition Unwrap (e : error) : option error :=
  match e with
  | wrapError _ err => Some err
  | errorString _ | ExitError _ _ => None
  end.

(** [errors.As] with a target of type [**exec.ExitError]: the first
    error of that type in the chain of [err], if there is one. *)
Fixpoint As_ExitError (err : error) : option (Z * bytes) :=
  match err with
  | ExitError status stderr => Some (status, stderr)
  | wrapError _ err' => As_ExitError err'
  | errorString _ => None
  end.

(** A call of [Errorf]: the literal text of the format and, for each of
    the verbs %s and %w, the operand it formats.  A format has at most
    one %w here. *)
Inductive operand : Type :=
| opString (s : bytes)
| opError (e : error).

Inductive directive : Type :=
| text (s : bytes)
| verb_s (a : operand)
| verb_w (a : operand).

Definition show (d : directive) : bytes :=
  match d with
  | text s => s
  | verb_s (opString s) => s
  | verb_s (opError e) => Error e
  | verb_w (opError e) => Error e
  | verb_w (opString s) => str "%!w(string=" ++ s ++ str ")"
  end.

Definition Sprintf (format : list directive) : bytes :=
  concat (map show format).

(** The operand of the first %w verb that formats an error. *)
Fixpoint wrapped (format : list directive) : option error :=
  match format with
  | [] => None
  | verb_w (opError e) :: _ => Some e
  | _ :: format' => wrapped format'
  end.

(** [Errorf] wraps the operand of %w; without %w the error is a plain
    message. *)
Definition Errorf (format : list directive) : error :=
  match wrapped format with
  | Some e => wrapError (Sprintf format) e
  | None => errorString (Sprintf format)
  end.

End Errors.

Module OsExec.

Import Errors.

Record Cmd : Type := mkCmd {
  Path : bytes;
  Args : list bytes;
  Dir : bytes
}.

(** [Command] keeps the name as the path; looking the name up along PATH
    is part of running the command. *)
Definition Command (name : bytes) (arg : list bytes) : Cmd :=
  {| Path := name; Args := name :: arg; Dir := [] |}.

Definition withDir (c : Cmd) (d : bytes) : Cmd :=
  {| Path := Path c; Args := Args c; Dir := d |}.

(** Programs that may run external commands: a result, or a command to
    run to completion and a continuation for its combined output and
    its error. *)
Inductive io (A : Type) : Type :=
| Ret (a : A)
| CombinedOutput (c : Cmd) (k : bytes * option error -> io A).

Arguments Ret {A} a.
Arguments CombinedOutput {A} c k.

(** The system: what running a command yields. *)
Definition system := Cmd -> bytes * option error.

(** [run sys m] is the result of [m] and the commands it spawned, in
    order. *)
Fixpoint run {A : Type} (sys : system) (m : io A) : A * list Cmd :=
  match m with
  | Ret a => (a, [])
  | CombinedOutput c k =>
      let '(a, spawned) := run sys (k (sys c)) in (a, c :: spawned)
  end.

End OsExec.

(** ** Package mkcert *)

Import Errors OsExec.

(** ErrNoDomains is returned to indicate no domains were requested. *)
Definition ErrNoDomains : error := New (str "mkcert: no domains specified").

Module Cert.

Record t : Type := mk {
  CARoot : bytes;
  Trusted : bool;
  Domains : list bytes;
  File : bytes;
  KeyFile : bytes
}.

(** The zero value [Cert{}]. *)
Definition zero : t :=
  {| CARoot := []; Trusted := false; Domains := []; File := []; KeyFile := [] |}.

Definition withFile (c : t) (f : bytes) : t :=
  {| CARoot := CARoot c; Trusted := Trusted c; Domains := Domains c;
     File := f; KeyFile := KeyFile c |}.

Definition withKeyFile (c : t) (f : bytes) : t :=
  {| CARoot := CARoot c; Trusted := Trusted c; Domains := Domains c;
     File := File c; KeyFile := f |}.

End Cert.

Record params : Type := mkParams {
  dir : bytes;
  certFile : bytes;
  keyFile : bytes;
  domains : list bytes;
  requireTrust : bool
}.

(** The zero value of [params] ([var p params]). *)
Definition zero_params : params :=
  {| dir := []; certFile := []; keyFile := []; domains := []; requireTrust := false |}.

(** An option updates the parameters in place; the update is modelled by
    the new value of the parameters.  (A nil [Opt], which would panic
    when called, is not a value of this type.) *)
Definition Opt : Type := params -> params.

Definition Domains (ds : list bytes) : Opt :=
  fun p => {| dir := dir p; certFile := certFile p; keyFile := keyFile p;
              domains := ds; requireTrust := requireTrust p |}.

Definition RequireTrusted (req : bool) : Opt :=
  fun p => {| dir := dir p; certFile := certFile p; keyFile := keyFile p;
              domains := domains p; requireTrust := req |}.

Definition Directory (path : bytes) : Opt :=
  fun p => {| dir := path; certFile := certFile p; keyFile := keyFile p;
              domains := domains p; requireTrust := requireTrust p |}.

Definition CertFile (path : bytes) : Opt :=
  fun p => {| dir := dir p; certFile := path; keyFile := keyFile p;
              domains := domains p; requireTrust := requireTrust p |}.

Definition KeyFile (path : bytes) : Opt :=
  fun p => {| dir := dir p; certFile := certFile p; keyFile := path;
              domains := domains p; requireTrust := requireTrust p |}.

(** [for _, o := range opts { o(&p) }] *)
Definition apply_opts (opts : list Opt) (p : params) : params :=
  fold_left (fun p o => o p) opts p.

Definition sparkles : Utf8.rune := 0x2728%Z.
Definition collision : Utf8.rune := 0x1F4A5%Z.

(** [local CA at "(.+?)" [collision sparkles]\n] *)
Definition caRe : Regexp.regex :=
  Regexp.Concats
    [ Regexp.Literal (str "local CA at " ++ [dq]);
      Regexp.Capture 1 (Regexp.PlusLazy Regexp.AnyCharNotNL);
      Regexp.Literal ([dq] ++ str " ");
      Regexp.CharClass [collision; sparkles];
      Regexp.Char (byteZ nl) ].

(** [(?m)The certificate is at "(.+?)" and the key at "(.+?)"]; the flag
    only changes the meaning of ^ and $, which the pattern does not use. *)
Definition fileRe : Regexp.regex :=
  Regexp.Concats
    [ Regexp.Literal (str "The certificate is at " ++ [dq]);
      Regexp.Capture 1 (Regexp.PlusLazy Regexp.AnyCharNotNL);
      Regexp.Literal ([dq] ++ str " and the key at " ++ [dq]);
      Regexp.Capture 2 (Regexp.PlusLazy Regexp.AnyCharNotNL);
      Regexp.Literal [dq] ].

Definition parseCA (out : bytes) : bytes :=
  let m := Regexp.FindSubmatch caRe out in
  if (length m <? 2)%nat then [] else nth 1 m [].

Definition parseTrusted (out : bytes) : bool :=
  negb (BytesPkg.Contains out (str "not installed")).

Definition parseFiles (out : bytes) : bytes * bytes :=
  let m := Regexp.FindSubmatch fileRe out in
  if (length m <? 3)%nat then ([], []) else (nth 1 m [], nth 2 m []).

(** Exec invokes mkcert to acquire a certificate. *)
Definition Exec (opts : list Opt) : io (Cert.t * option error) :=
  let p := apply_opts opts zero_params in
  if (length (domains p) =? 0)%nat then Ret (Cert.zero, Some ErrNoDomains)
  else
    (* Ask mkcert to generate the certificates. *)
    let args := [] in
    let args := if negb (bytes_eqb (certFile p) [])
                then args ++ [str "-cert-file"; certFile p] else args in
    let args := if negb (bytes_eqb (keyFile p) [])
                then args ++ [str "-key-file"; keyFile p] else args in
    let cmd := Command (str "mkcert") (args ++ domains p) in
    let cmd := withDir cmd (dir p) in
    CombinedOutput cmd (fun '(out, err) =>
      match err with
      | Some e =>
          Ret (Cert.zero, Some (Errorf [text (str "mkcert: "); verb_s (opError e)]))
      | None =>
          let '(certFile, keyFile) := parseFiles out in
          let cert :=
            {| Cert.CARoot := parseCA out;
               Cert.Trusted := parseTrusted out;
               Cert.Domains := domains p;
               Cert.File := certFile;
               Cert.KeyFile := keyFile |} in
          let cert :=
            if negb (bytes_eqb (Dir cmd) []) then
              let cert :=
                if negb (Filepath.IsAbs (Cert.File cert))
                then Cert.withFile cert (Filepath.Join [Dir cmd; Cert.File cert])
                else cert in
              if negb (Filepath.IsAbs (Cert.KeyFile cert))
              then Cert.withKeyFile cert (Filepath.Join [Dir cmd; Cert.KeyFile cert])
              else cert
            else cert in
          let err :=
            if negb (Cert.Trusted cert) && requireTrust p
            then Some (Errorf [text (str "mkcert: CA at ");
                               verb_s (opString (Cert.CARoot cert));
                               text (str " not trusted, run mkcert -install")])
            else None in
          Ret (cert, err)
      end).

(** ** Vocabulary of the specification

    Byte-level descriptions of what the decoder and the two patterns
    accept; the theorems below relate them to the definitions above. *)

Module Spec.

Import Utf8 Regexp.

Definition ascii (b : byte) : Prop := (byteZ b < 0x80)%Z.
Definition high (b : byte) : Prop := (0x80 <= byteZ b)%Z.

(** A text that starts with an ASCII byte. *)
Definition ascii_head (s : bytes) : Prop := exists a t, s = a :: t /\ ascii a.

(** The shapes of a decoded rune: the bytes read, the rune, its width. *)
Inductive decoded : bytes -> rune -> nat -> Prop :=
| dec_ascii c0 t :
    (byteZ c0 < 0x80)%Z -> decoded (c0 :: t) (byteZ c0) 1
| dec_invalid c0 t :
    (0x80 <= byteZ c0)%Z -> decoded (c0 :: t) RuneError 1
| dec_two c0 c1 t :
    (0xC2 <= byteZ c0 < 0xE0)%Z -> (0x80 <= byteZ c1 <= 0xBF)%Z ->
    decoded (c0 :: c1 :: t)
            ((byteZ c0 mod 32) * 64 + byteZ c1 mod 64)%Z 2
| dec_three c0 c1 c2 t :
    (0xE0 <= byteZ c0 < 0xF0)%Z -> (0x80 <= byteZ c1 <= 0xBF)%Z ->
    (byteZ c0 = 0xE0 -> 0xA0 <= byteZ c1)%Z ->
    (0x80 <= byteZ c2 <= 0xBF)%Z ->
    decoded (c0 :: c1 :: c2 :: t)
            ((byteZ c0 mod 16) * 4096 + (byteZ c1 mod 64) * 64
             + byteZ c2 mod 64)%Z 3
| dec_four c0 c1 c2 c3 t :
    (0xF0 <= byteZ c0 <= 0xF4)%Z -> (0x80 <= byteZ c1 <= 0xBF)%Z ->
    (byteZ c0 = 0xF0 -> 0x90 <= byteZ c1)%Z ->
    (0x80 <= byteZ c2 <= 0xBF)%Z -> (0x80 <= byteZ c3 <= 0xBF)%Z ->
    decoded (c0 :: c1 :: c2 :: c3 :: t)
            ((byteZ c0 mod 8) * 262144 + (byteZ c1 mod 64) * 4096
             + (byteZ c2 mod 64) * 64 + byteZ c3 mod 64)%Z 4.

(** [strip l s]: the rest of [s] after its prefix [l]. *)
Fixpoint strip (l s : bytes) : option bytes :=
  match l, s with
  | [], _ => Some s
  | _ :: _, [] => None
  | a :: l', b :: s' => if Byte.eqb b a then strip l' s' else None
  end.

(** [scan K s]: the first success of [K] on the text that follows a
    non-empty run of bytes of [s] other than the newline, shortest run
    first.  This is [.+?] followed by [K], byte by byte. *)
Fixpoint scan {R : Type} (K : bytes -> option R) (s : bytes) : option R :=
  match s with
  | [] => None
  | b :: t =>
      if Byte.eqb b nl then None
      else match K t with
           | Some r => Some r
           | None => scan K t
           end
  end.

(** [find_first M s]: the leftmost suffix of [s] on which [M] succeeds. *)
Fixpoint find_first {R : Type} (M : bytes -> option R) (s : bytes)
  : option (bytes * R) :=
  match M s with
  | Some x => Some (s, x)
  | None => match s with
            | [] => None
            | _ :: t => find_first M t
            end
  end.

(** The loop of [exec] on [PlusLazy r1], named. *)
Definition lazy_loop (r1 : regex) (k : cont) : nat -> bytes -> caps -> result :=
  fix loop (fuel : nat) (s : bytes) (c : caps) {struct fuel} : result :=
    match fuel with
    | O => None
    | S fuel' =>
        exec r1 s c (fun s' c' =>
          match k s' c' with
          | Some res => Some res
          | None => loop fuel' s' c'
          end)
    end.

(** What [.+] matches: a non-empty text without a newline. *)
Definition plain (c : bytes) : Prop := c <> [] /\ ~ In nl c.

(** [(a, b) <= (a', b')] and [(a, b, c) <= (a', b', c')] in the
    lexicographic order. *)
Definition lex2 (a b a' b' : nat) : Prop :=
  (a < a')%nat \/ (a = a' /\ (b <= b')%nat).

Definition lex3 (a b c a' b' c' : nat) : Prop :=
  (a < a')%nat \/ (a = a' /\ lex2 b c b' c').

(** *** The certificate and key line *)

Definition fileL1 : bytes := str "The certificate is at " ++ [dq].
Definition fileL2 : bytes := [dq] ++ str " and the key at " ++ [dq].
Definition fileL3 : bytes := [dq].

(** [The certificate is at "c" and the key at "k"] *)
Definition file_line (c k : bytes) : bytes :=
  fileL1 ++ c ++ fileL2 ++ k ++ fileL3.

(** [out] is [pre], then a match of [fileRe] with groups [c] and [k],
    then [post]. *)
Definition FileMatch (out pre c k post : bytes) : Prop :=
  out = pre ++ file_line c k ++ post /\ plain c /\ plain k.

(** The match of [fileRe] at the start of [s], byte by byte. *)
Definition file_here (s : bytes) : option (bytes * caps) :=
  match strip fileL1 s with
  | None => None
  | Some s1 =>
      scan (fun s2 =>
        match strip fileL2 s2 with
        | None => None
        | Some s3 =>
            scan (fun s4 =>
              match strip fileL3 s4 with
              | None => None
              | Some s5 => Some (s5, [[]; consumed s1 s2; consumed s3 s4])
              end) s3
        end) s1
  end.

(** *** The CA line *)

Definition caL1 : bytes := str "local CA at " ++ [dq].
Definition caL2 : bytes := [dq] ++ str " ".
Definition collision_utf8 : bytes := [xf0; x9f; x92; xa5].
Definition sparkles_utf8 : bytes := [xe2; x9c; xa8].

(** [local CA at "c" marker], then a newline. *)
Definition ca_line (c marker : bytes) : bytes :=
  caL1 ++ c ++ caL2 ++ marker ++ [nl].

(** [out] is [pre], then a match of [caRe] with group [c], then [post]. *)
Definition CAMatch (out pre c post : bytes) : Prop :=
  exists marker,
    (marker = collision_utf8 \/ marker = sparkles_utf8)
    /\ out = pre ++ ca_line c marker ++ post /\ plain c.

Definition marker_here (s : bytes) : option bytes :=
  match strip collision_utf8 s with
  | Some s' => Some s'
  | None => strip sparkles_utf8 s
  end.

(** The match of [caRe] at the start of [s], byte by byte. *)
Definition ca_here (s : bytes) : option (bytes * caps) :=
  match strip caL1 s with
  | None => None
  | Some s1 =>
      scan (fun s2 =>
        match strip caL2 s2 with
        | None => None
        | Some s3 =>
            match marker_here s3 with
            | None => None
            | Some s4 =>
                match strip [nl] s4 with
                | None => None
                | Some s5 => Some (s5, [[]; consumed s1 s2])
                end
            end
        end) s1
  end.

(** *** Substrings *)

Definition Substring (sub s : bytes) : Prop :=
  exists pre post, s = pre ++ sub ++ post.

(** *** The invocation *)

(** The parameters that [Exec] works with. *)
Definition params_of (opts : list Opt) : params := apply_opts opts zero_params.

(** The command line: the optional [-cert-file] and [-key-file] flags,
    then the domains, run in the directory of the parameters. *)
Definition command_line (p : params) : Cmd :=
  {| Path := str "mkcert";
     Args := str "mkcert"
             :: match certFile p with
                | [] => []
                | _ :: _ => [str "-cert-file"; certFile p]
                end
             ++ match keyFile p with
                | [] => []
                | _ :: _ => [str "-key-file"; keyFile p]
                end
             ++ domains p;
     Dir := dir p |}.

(** A path of the output as the caller sees it: joined with the working
    directory when there is one and the path is not absolute. *)
Definition resolve (d f : bytes) : bytes :=
  match d with
  | [] => f
  | _ :: _ => if Filepath.IsAbs f then f else Filepath.Join [d; f]
  end.

(** The error of a run whose CA is not trusted. *)
Definition not_trusted (caroot : bytes) : error :=
  errorString (str "mkcert: CA at " ++ caroot
               ++ str " not trusted, run mkcert -install").

(** *** Options as calls *)

Inductive option_call : Type :=
| call_Domains (ds : list bytes)
| call_RequireTrusted (req : bool)
| call_Directory (path : bytes)
| call_CertFile (path : bytes)
| call_KeyFile (path : bytes).

Definition option_of (c : option_call) : Opt :=
  match c with
  | call_Domains ds => Domains ds
  | call_RequireTrusted req => RequireTrusted req
  | call_Directory path => Directory path
  | call_CertFile path => CertFile path
  | call_KeyFile path => KeyFile path
  end.

Definition sets_domains (c : option_call) : option (list bytes) :=
  match c with call_Domains ds => Some ds | _ => None end.
Definition sets_requireTrust (c : option_call) : option bool :=
  match c with call_RequireTrusted req => Some req | _ => None end.
Definition sets_dir (c : option_call) : option bytes :=
  match c with call_Directory path => Some path | _ => None end.
Definition sets_certFile (c : option_call) : option bytes :=
  match c with call_CertFile path => Some path | _ => None end.
Definition sets_keyFile (c : option_call) : option bytes :=
  match c with call_KeyFile path => Some path | _ => None end.

(** The values that the calls give to the field selected by [sel], in
    order, and the last of them; [d] when no call sets the field. *)
Definition settings {A : Type} (sel : option_call -> option A)
           (cs : list option_call) : list A :=
  flat_map (fun c => match sel c with Some v => [v] | None => [] end) cs.

Definition last_setting {A : Type} (sel : option_call -> option A) (d : A)
           (cs : list option_call) : A :=
  last (settings sel cs) d.

(** The parameters that a list of calls leaves: each field holds its last
    setting, the zero value when no call sets it. *)
Definition last_params (cs : list option_call) : params :=
  {| dir := last_setting sets_dir [] cs;
     certFile := last_setting sets_certFile [] cs;
     keyFile := last_setting sets_keyFile [] cs;
     domains := last_setting sets_domains [] cs;
     requireTrust := last_setting sets_requireTrust false cs |}.

End Spec.

(** ** Sample runs *)

Module Sample.

Import Spec.

(** The options of the example program, with a fixed directory. *)
Definition opts : list Opt :=
  [ Domains [str "localhost"]; RequireTrusted true;
    Directory (str "/tmp/mkcert") ].

Definition ca_text : bytes :=
  str "Using the local CA at " ++ [dq] ++ str "/home/dev/.local/share/mkcert"
  ++ [dq] ++ str " " ++ sparkles_utf8 ++ [nl].

Definition warn_text : bytes :=
  str "Warning: the local CA is not installed in the system trust store!"
  ++ [nl].

Definition cert_path : bytes := str "./localhost.pem".
Definition key_path : bytes := str "./localhost-key.pem".

Definition file_text : bytes := file_line cert_path key_path ++ [nl].

Definition trusted : bytes := ca_text ++ file_text.
Definition untrusted : bytes := ca_text ++ warn_text ++ file_text.

(** A transcript with neither the CA line nor the file line. *)
Definition bare : bytes := str "Created a new certificate" ++ [nl].

(** A system on which mkcert exits with status 0 and prints [out]. *)
Definition prints (out : bytes) : system := fun _ => (out, None).

(** A system on which mkcert fails: it exits with [status], having
    written [stderr] to its standard error. *)
Definition fails (status : Z) (stderr out : bytes) : system :=
  fun _ => (out, Some (ExitError status stderr)).

End Sample.

(** ** Further vocabulary *)

Module Props.

Import Spec.

(** No proper suffix of [l] is a prefix of [l]: two occurrences of [l] in
    a text do not overlap. *)
Definition unbordered (l : bytes) : bool :=
  forallb (fun j => negb (BytesPkg.HasPrefix l (skipn j l)))
          (List.seq 1 (length l - 1)).

(** A path that the tool can print between double quotes and that reads
    back unchanged: not empty, without a newline or a double quote. *)
Definition quotable (p : bytes) : Prop := plain p /\ ~ In dq p.

Definition marker (m : bytes) : Prop :=
  m = collision_utf8 \/ m = sparkles_utf8.

(** The field of the parameters that an option sets. *)
Inductive field : Type :=
| f_domains | f_requireTrust | f_dir | f_certFile | f_keyFile.

Definition field_of (c : option_call) : field :=
  match c with
  | call_Domains _ => f_domains
  | call_RequireTrusted _ => f_requireTrust
  | call_Directory _ => f_dir
  | call_CertFile _ => f_certFile
  | call_KeyFile _ => f_keyFile
  end.

End Props.

(** ** The example programs

    The two variants of [main] serve the current directory over HTTPS
    with a certificate from [Exec].  A program is the tree of the library
    calls it makes, from the parsing of the command line on. *)

Module Program.

Import Spec.

(** *** flag

    The command line of the programs has the one string flag -b.
    [parseOne] follows [FlagSet.parseOne] on the arguments that remain. *)

Inductive parsed_one : Type :=
| flag_b (value : bytes) (rest : list bytes)  (* the flag -b and its value *)
| no_flag (rest : list bytes)                 (* the flags have ended *)
| help_requested                              (* ErrHelp: -h or -help *)
| parse_error.                                (* bad syntax, a flag that is not
                                                 defined, a missing value *)

Definition minus : byte := x2d.
Definition equals : byte := x3d.

(** The text before the first [=] and the text after it, if there is
    one. *)
Fixpoint cut (s : bytes) : bytes * option bytes :=
  match s with
  | [] => ([], None)
  | c :: s' =>
      if Byte.eqb c equals then ([], Some s')
      else let '(n, v) := cut s' in (c :: n, v)
  end.

Definition parseOne (args : list bytes) : parsed_one :=
  match args with
  | [] => no_flag []
  | s :: rest =>
      match s with
      | c0 :: c1 :: s2 =>
          if negb (Byte.eqb c0 minus) then no_flag args
          else if Byte.eqb c1 minus && (length s =? 2)%nat then
            (* "--" terminates the flags *)
            no_flag rest
          else
            let name := if Byte.eqb c1 minus then s2 else c1 :: s2 in
            match name with
            | [] => parse_error
            | n0 :: tail =>
                if Byte.eqb n0 minus || Byte.eqb n0 equals then parse_error
                else
                  (* it's a flag. does it have an argument?
                     equals cannot be first *)
                  let '(n, value) := cut tail in
                  let name := n0 :: n in
                  if bytes_eqb name (str "b") then
                    (* It must have a value, which might be the next
                       argument. *)
                    match value, rest with
                    | Some v, _ => flag_b v rest
                    | None, v :: rest' => flag_b v rest'
                    | None, [] => parse_error
                    end
                  else if bytes_eqb name (str "help") || bytes_eqb name (str "h")
                  then help_requested
                  else parse_error
            end
      | _ => no_flag args
      end
  end.

(** [flag.Parse] on a flag set that exits on error: the value of -b when
    it was given and the arguments after the flags, or the exit of the
    process, with status 0 for -h and -help (since Go 1.15) and status 2
    for an error. *)
Inductive parse_result : Type :=
| Parsed (b : option bytes) (rest : list bytes)
| ParseExit (code : Z).

Fixpoint parse_loop (fuel : nat) (b : option bytes) (args : list bytes)
  : parse_result :=
  match parseOne args with
  | flag_b v rest =>
      match fuel with
      | O => Parsed (Some v) rest
      | S fuel' => parse_loop fuel' (Some v) rest
      end
  | no_flag rest => Parsed b rest
  | help_requested => ParseExit 0
  | parse_error => ParseExit 2
  end.

Definition flag_Parse (args : list bytes) : parse_result :=
  parse_loop (length args) None args.

(** [flag.String("b", "localhost:12345", ...)] *)
Definition bind_flag (b : option bytes) : bytes :=
  match b with
  | Some addr => addr
  | None => str "localhost:12345"
  end.

(** *** Programs *)

(** The operands of the logging calls. *)
Inductive value : Type :=
| vError (e : error)
| vString (s : bytes)
| vCert (c : Cert.t).

Inductive proc : Type :=
| FlagParse (args : list bytes)
            (k : option bytes -> proc)            (* flag.String, flag.Parse *)
| TempDir (dir pattern : bytes)
          (k : bytes * option error -> proc)      (* ioutil.TempDir *)
| MkcertExec (m : io (Cert.t * option error))
             (k : Cert.t * option error -> proc)  (* mkcert.Exec *)
| Println (v : list value) (k : proc)             (* log.Println *)
| Printf (format : bytes) (v : list value)
         (k : proc)                               (* log.Printf *)
| Fatal (v : list value)                          (* log.Fatal *)
| Exit (code : Z)                                 (* os.Exit *)
| ListenAndServeTLS (addr certFile keyFile root : bytes)
                    (k : error -> proc).          (* http.ListenAndServeTLS
                                                     on http.FileServer(http.Dir(root)) *)

(** What a run is seen to do. *)
Inductive action : Type :=
| did_FlagParse (args : list bytes)
| did_TempDir (dir pattern : bytes)
| did_Command (c : Cmd)
| did_Println (v : list value)
| did_Printf (format : bytes) (v : list value)
| did_Fatal (v : list value)
| did_Exit (code : Z)
| did_ListenAndServeTLS (addr certFile keyFile root : bytes).

(** How a run ends: the process exits, or the server never returns. *)
Inductive outcome : Type :=
| Exited (code : Z)
| Serving.

(** The world of a run: the temporary directory it creates, what
    commands yield, and the error with which the server returns, if it
    does. *)
Record world : Type := mkWorld {
  tempdir : bytes -> bytes -> bytes * option error;
  commands : system;
  server : bytes -> bytes -> bytes -> bytes -> option error
}.

(** [flag.Parse] exits the process on -h and on a bad command line;
    [log.Fatal] is a print followed by [os.Exit(1)]. *)
Fixpoint perform (w : world) (p : proc) : list action * outcome :=
  match p with
  | FlagParse args k =>
      match flag_Parse args with
      | ParseExit code => ([did_FlagParse args], Exited code)
      | Parsed b _ =>
          let '(t, o) := perform w (k b) in (did_FlagParse args :: t, o)
      end
  | TempDir d pattern k =>
      let '(t, o) := perform w (k (tempdir w d pattern)) in
      (did_TempDir d pattern :: t, o)
  | MkcertExec m k =>
      let '(r, spawned) := run (commands w) m in
      let '(t, o) := perform w (k r) in
      (map did_Command spawned ++ t, o)
  | Println v k =>
      let '(t, o) := perform w k in (did_Println v :: t, o)
  | Printf format v k =>
      let '(t, o) := perform w k in (did_Printf format v :: t, o)
  | Fatal v => ([did_Fatal v], Exited 1)
  | Exit code => ([did_Exit code], Exited code)
  | ListenAndServeTLS addr certFile keyFile root k =>
      match server w addr certFile keyFile root with
      | None => ([did_ListenAndServeTLS addr certFile keyFile root], Serving)
      | Some e =>
          let '(t, o) := perform w (k e) in
          (did_ListenAndServeTLS addr certFile keyFile root :: t, o)
      end
  end.

(** The variant that logs the error, looks for the stderr of the command
    and exits with status 1.  [args] is the command line after the
    program name. *)
Module Part000.

Definition main (args : list bytes) : proc :=
  (* Flags. *)
  FlagParse args (fun b =>
  let bind := bind_flag b in
  (* Create a temporary directory for the certificate files. *)
  TempDir [] (str "mkcert") (fun '(dir, err) =>
    match err with
    | Some e => Fatal [vError e]
    | None =>
        (* Get our certificate. *)
        MkcertExec
          (Exec [Domains [str "localhost"]; RequireTrusted true; Directory dir])
          (fun '(cert, err) =>
             match err with
             | Some e =>
                 Println [vError e]
                   (match As_ExitError e with
                    | Some (_, stderr) =>
                        Println [vString (str "mkcert stderr:"); vString stderr]
                                (Exit 1)
                    | None => Exit 1
                    end)
             | None =>
                 Printf (str "Using certificate: %#v") [vCert cert]
                   (Printf (sparkles_utf8 ++ str " https://%s/ " ++ sparkles_utf8)
                           [vString bind]
                      (* Launch the server. *)
                      (ListenAndServeTLS bind (Cert.File cert) (Cert.KeyFile cert)
                                         (str ".")
                                         (fun e => Fatal [vError e])))
             end)
    end)).

End Part000.

(** The variant for which every error of [Exec] is fatal at once. *)
Module Part001.

Definition main (args : list bytes) : proc :=
  (* Flags. *)
  FlagParse args (fun b =>
  let bind := bind_flag b in
  (* Create a temporary directory for the certificate files. *)
  TempDir [] (str "mkcert") (fun '(dir, err) =>
    match err with
    | Some e => Fatal [vError e]
    | None =>
        (* Get our certificate. *)
        MkcertExec
          (Exec [Domains [str "localhost"]; RequireTrusted true; Directory dir])
          (fun '(cert, err) =>
             match err with
             | Some e => Fatal [vError e]
             | None =>
                 Printf (str "Using certificate: %#v") [vCert cert]
                   (Printf (sparkles_utf8 ++ str " https://%s/ " ++ sparkles_utf8)
                           [vString bind]
                      (* Launch the server. *)
                      (ListenAndServeTLS bind (Cert.File cert) (Cert.KeyFile cert)
                                         (str ".")
                                         (fun e => Fatal [vError e])))
             end)
    end)).

End Part001.

(** The directory, the command and the output of a run in [w]. *)
Definition tmp (w : world) : bytes := fst (tempdir w [] (str "mkcert")).

Definition mkcert_localhost (w : world) : Cmd :=
  {| Path := str "mkcert"; Args := [str "mkcert"; str "localhost"];
     Dir := tmp w |}.

Definition output (w : world) : bytes := fst (commands w (mkcert_localhost w)).

(** The command line is accepted: [flag.Parse] returns. *)
Definition accepted (args : list bytes) : Prop :=
  exists b rest, flag_Parse args = Parsed b rest.

(** The world lets a run get as far as a certificate without an error. *)
Definition certified (w : world) : Prop :=
  snd (tempdir w [] (str "mkcert")) = None
  /\ snd (commands w (mkcert_localhost w)) = None
  /\ parseTrusted (output w) = true.

(** The calls that reach outside the process, and the values logged. *)
Definition external (a : action) : bool :=
  match a with
  | did_FlagParse _ | did_TempDir _ _ | did_Command _
  | did_ListenAndServeTLS _ _ _ _ => true
  | did_Println _ | did_Printf _ _ | did_Fatal _ | did_Exit _ => false
  end.


(** The certificate of a run that is [certified]. *)
Definition certificate (w : world) : Cert.t :=
  {| Cert.CARoot := parseCA (output w);
     Cert.Trusted := parseTrusted (output w);
     Cert.Domains := [str "localhost"];
     Cert.File := resolve (tmp w) (fst (parseFiles (output w)));
     Cert.KeyFile := resolve (tmp w) (snd (parseFiles (output w))) |}.

(** The error of [Exec] in a run whose temporary directory exists. *)
Definition exec_error (w : world) : option error :=
  match snd (commands w (mkcert_localhost w)) with
  | Some e => Some (errorString (str "mkcert: " ++ Error e))
  | None => if parseTrusted (output w) then None
            else Some (not_trusted (parseCA (output w)))
  end.

(** The calls of a run from the server on, and how the run ends. *)
Definition serving (w : world) (bind : bytes) : list action * outcome :=
  match server w bind (Cert.File (certificate w)) (Cert.KeyFile (certificate w))
               (str ".") with
  | None =>
      ([did_ListenAndServeTLS bind (Cert.File (certificate w))
                              (Cert.KeyFile (certificate w)) (str ".")],
       Serving)
  | Some e =>
      ([did_ListenAndServeTLS bind (Cert.File (certificate w))
                              (Cert.KeyFile (certificate w)) (str ".");
        did_Fatal [vError e]],
       Exited 1)
  end.

(** The calls of a run after the flags, and how the run ends; [tail] is
    what a variant does with an error of [Exec]. *)
Definition after_flags (w : world) (b : option bytes)
           (tail : error -> list action) : list action * outcome :=
  match snd (tempdir w [] (str "mkcert")) with
  | Some e =>
      ([did_TempDir [] (str "mkcert"); did_Fatal [vError e]], Exited 1)
  | None =>
      match exec_error w with
      | Some e =>
          (did_TempDir [] (str "mkcert") :: did_Command (mkcert_localhost w)
           :: tail e, Exited 1)
      | None =>
          (did_TempDir [] (str "mkcert") :: did_Command (mkcert_localhost w)
           :: did_Printf (str "Using certificate: %#v") [vCert (certificate w)]
           :: did_Printf (sparkles_utf8 ++ str " https://%s/ " ++ sparkles_utf8)
                         [vString (bind_flag b)]
           :: fst (serving w (bind_flag b)),
           snd (serving w (bind_flag b)))
      end
  end.

Definition tail000 (e : error) : list action :=
  [did_Println [vError e]; did_Exit 1].

Definition tail001 (e : error) : list action := [did_Fatal [vError e]].

(** The run starts the server. *)
Definition serves (t : list action) : Prop :=
  exists addr certFile keyFile root,
    In (did_ListenAndServeTLS addr certFile keyFile root) t.

(** A world for sample runs. *)
Definition sample_world (out : bytes) (err : option error) : world :=
  {| tempdir := fun _ _ => (str "/tmp/mkcert123", None);
     commands := fun _ => (out, err);
     server := fun _ _ _ _ => None |}.

End Program.

(** * Part II: facts about the model *)

Import Utf8 Regexp Spec.

(** ** Facts about bytes *)

Lemma byteZ_range (b : byte) : (0 <= byteZ b < 256)%Z.
Proof. unfold byteZ. pose proof (Byte.to_N_bounded b). lia. Qed.

Lemma byteZ_inj (a b : byte) : byteZ a = byteZ b -> a = b.
Proof.
  unfold byteZ. intros H. apply N2Z.inj in H.
  pose proof (Byte.of_to_N a) as Ha. rewrite H, Byte.of_to_N in Ha.
  congruence.
Qed.

Lemma byte_eqb_eq (a b : byte) : Byte.eqb a b = true <-> a = b.
Proof.
  split; [apply Byte.byte_dec_bl | apply Byte.byte_dec_lb].
Qed.

Lemma byte_eqb_refl (a : byte) : Byte.eqb a a = true.
Proof. now apply byte_eqb_eq. Qed.

Lemma byte_eqb_neq (a b : byte) : Byte.eqb a b = false <-> a <> b.
Proof.
  rewrite <- byte_eqb_eq. destruct (Byte.eqb a b); split; congruence.
Qed.

Lemma bytes_eqb_eq (a b : bytes) : bytes_eqb a b = true <-> a = b.
Proof.
  revert b. induction a as [|x a IH]; intros [|y b]; simpl; split;
    try congruence; try reflexivity.
  - rewrite andb_true_iff, byte_eqb_eq, IH. intros [-> ->]. reflexivity.
  - intros E. injection E as -> ->. rewrite byte_eqb_refl. now apply IH.
Qed.

Lemma bytes_eqb_nil (a : bytes) : bytes_eqb a [] = false <-> a <> [].
Proof.
  destruct a; simpl; split; congruence.
Qed.

(** ** Facts about UTF-8 decoding *)

Section Utf8Facts.

Local Open Scope Z_scope.

Lemma lor_shiftl (a b k : Z) :
  0 <= a -> 0 <= k -> 0 <= b < 2 ^ k ->
  Z.lor (Z.shiftl a k) b = a * 2 ^ k + b.
Proof.
  intros Ha Hk Hb.
  assert (D : Z.land (Z.shiftl a k) b = 0).
  { apply Z.bits_inj'. intros n Hn.
    rewrite Z.land_spec, Z.bits_0.
    destruct (Z.lt_ge_cases n k) as [L|G].
    - rewrite Z.shiftl_spec_low by assumption. reflexivity.
    - destruct (Z.eq_dec b 0) as [->|Nz].
      + rewrite Z.bits_0. apply andb_false_r.
      + rewrite (Z.bits_above_log2 b n); [apply andb_false_r | lia |].
        apply Z.lt_le_trans with k; [apply Z.log2_lt_pow2; lia | lia]. }
  rewrite <- Z.lxor_lor by assumption.
  rewrite <- Z.add_nocarry_lxor by assumption.
  rewrite Z.shiftl_mul_pow2 by assumption. reflexivity.
Qed.

Lemma lor_shiftl6 (a b : Z) :
  0 <= a -> 0 <= b < 64 -> Z.lor (Z.shiftl a 6) b = a * 64 + b.
Proof. intros. apply (lor_shiftl a b 6); lia. Qed.

Lemma land_maskx (b : Z) : Z.land b maskx = b mod 64.
Proof. exact (Z.land_ones b 6 ltac:(lia)). Qed.
Lemma land_mask2 (b : Z) : Z.land b mask2 = b mod 32.
Proof. exact (Z.land_ones b 5 ltac:(lia)). Qed.
Lemma land_mask3 (b : Z) : Z.land b mask3 = b mod 16.
Proof. exact (Z.land_ones b 4 ltac:(lia)). Qed.
Lemma land_mask4 (b : Z) : Z.land b mask4 = b mod 8.
Proof. exact (Z.land_ones b 3 ltac:(lia)). Qed.

Lemma rune2 (p0 b1 : Z) :
  Z.lor (Z.shiftl (Z.land p0 mask2) 6) (Z.land b1 maskx)
  = (p0 mod 32) * 64 + b1 mod 64.
Proof.
  rewrite land_mask2, land_maskx.
  rewrite lor_shiftl6; [reflexivity | |]; apply Z.mod_pos_bound; lia.
Qed.

Lemma rune3 (p0 b1 b2 : Z) :
  Z.lor (Z.lor (Z.shiftl (Z.land p0 mask3) 12) (Z.shiftl (Z.land b1 maskx) 6))
        (Z.land b2 maskx)
  = (p0 mod 16) * 4096 + (b1 mod 64) * 64 + b2 mod 64.
Proof.
  rewrite land_mask3, !land_maskx.
  pose proof (Z.mod_pos_bound p0 16 ltac:(lia)).
  pose proof (Z.mod_pos_bound b1 64 ltac:(lia)).
  pose proof (Z.mod_pos_bound b2 64 ltac:(lia)).
  replace (Z.lor (Z.shiftl (p0 mod 16) 12) (Z.shiftl (b1 mod 64) 6))
    with (Z.shiftl ((p0 mod 16) * 64 + b1 mod 64) 6).
  - rewrite lor_shiftl6 by lia. lia.
  - rewrite <- (lor_shiftl6 (p0 mod 16) (b1 mod 64)) by lia.
    rewrite Z.shiftl_lor, Z.shiftl_shiftl by lia. reflexivity.
Qed.

Lemma rune4 (p0 b1 b2 b3 : Z) :
  Z.lor (Z.lor (Z.lor (Z.shiftl (Z.land p0 mask4) 18)
                      (Z.shiftl (Z.land b1 maskx) 12))
               (Z.shiftl (Z.land b2 maskx) 6))
        (Z.land b3 maskx)
  = (p0 mod 8) * 262144 + (b1 mod 64) * 4096 + (b2 mod 64) * 64 + b3 mod 64.
Proof.
  rewrite land_mask4, !land_maskx.
  pose proof (Z.mod_pos_bound p0 8 ltac:(lia)).
  pose proof (Z.mod_pos_bound b1 64 ltac:(lia)).
  pose proof (Z.mod_pos_bound b2 64 ltac:(lia)).
  pose proof (Z.mod_pos_bound b3 64 ltac:(lia)).
  replace (Z.lor (Z.lor (Z.shiftl (p0 mod 8) 18) (Z.shiftl (b1 mod 64) 12))
                 (Z.shiftl (b2 mod 64) 6))
    with (Z.shiftl (((p0 mod 8) * 64 + b1 mod 64) * 64 + b2 mod 64) 6).
  - rewrite lor_shiftl6 by lia. lia.
  - rewrite <- (lor_shiftl6 ((p0 mod 8) * 64 + b1 mod 64) (b2 mod 64)) by lia.
    rewrite <- (lor_shiftl6 (p0 mod 8) (b1 mod 64)) by lia.
    rewrite !Z.shiftl_lor, !Z.shiftl_shiftl by lia. reflexivity.
Qed.

Ltac zbool :=
  repeat match goal with
    | H : (_ <? _) = true |- _ => apply Z.ltb_lt in H
    | H : (_ <? _) = false |- _ => apply Z.ltb_ge in H
    | H : (_ <=? _) = true |- _ => apply Z.leb_le in H
    | H : (_ <=? _) = false |- _ => apply Z.leb_gt in H
    | H : (_ =? _) = true |- _ => apply Z.eqb_eq in H
    | H : (_ =? _) = false |- _ => apply Z.eqb_neq in H
    | H : _ || _ = false |- _ => apply orb_false_iff in H; destruct H
    | H : _ && _ = true |- _ => apply andb_true_iff in H; destruct H
    | H : negb _ = false |- _ => apply negb_false_iff in H
    end.

Lemma first_cases (p0 : Z) :
  match first p0 with
  | as_ascii => p0 < 0x80
  | xx_invalid => 0x80 <= p0
  | seq sz lo hi =>
      0x80 <= lo /\ hi <= 0xBF /\
      ((sz = 2%nat /\ 0xC2 <= p0 < 0xE0) \/
       (sz = 3%nat /\ 0xE0 <= p0 < 0xF0 /\ (p0 = 0xE0 -> lo = 0xA0)) \/
       (sz = 4%nat /\ 0xF0 <= p0 <= 0xF4 /\ (p0 = 0xF0 -> lo = 0x90)))
  end.
Proof.
  unfold first, locb, hicb.
  repeat match goal with
         | |- context [if ?b then _ else _] => destruct b eqn:?
         end; zbool; lia.
Qed.

Lemma DecodeRune_decoded (c0 : byte) (t : bytes) :
  decoded (c0 :: t) (fst (DecodeRune (c0 :: t))) (snd (DecodeRune (c0 :: t))).
Proof.
  unfold DecodeRune.
  pose proof (first_cases (byteZ c0)) as F.
  destruct (first (byteZ c0)) as [| |sz lo hi]; cbn [fst snd].
  - now constructor.
  - now constructor.
  - assert (I : 0x80 <= byteZ c0) by lia.
    destruct F as (Hlo & Hhi & F).
    destruct t as [|c1 t1]; [now constructor|].
    destruct ((byteZ c1 <? lo) || (hi <? byteZ c1)) eqn:E1; [now constructor|].
    zbool.
    destruct F as [(-> & F) | [(-> & F & L) | (-> & F & L)]]; cbn [Nat.leb].
    + rewrite rune2. constructor; lia.
    + destruct t1 as [|c2 t2]; [now constructor|].
      unfold is_cont, locb, hicb.
      destruct (negb _) eqn:E2; [now constructor|]. zbool.
      rewrite rune3. constructor; lia.
    + destruct t1 as [|c2 t2]; [now constructor|].
      unfold is_cont, locb, hicb.
      destruct (negb _) eqn:E2; [now constructor|]. zbool.
      destruct t2 as [|c3 t3]; [now constructor|].
      destruct (negb _) eqn:E3; [now constructor|]. zbool.
      rewrite rune4. constructor; lia.
Qed.

Lemma decoded_split (s : bytes) (r : rune) (n : nat) :
  decoded s r n ->
  exists b h rest, s = b :: h ++ rest /\ S (length h) = n /\ Forall high h
                   /\ skipn n s = rest.
Proof.
  unfold high.
  intros D; inversion D; subst.
  - exists c0, [], t. repeat split; constructor.
  - exists c0, [], t. repeat split; constructor.
  - exists c0, [c1], t. repeat split. repeat constructor; lia.
  - exists c0, [c1; c2], t. repeat split. repeat constructor; lia.
  - exists c0, [c1; c2; c3], t. repeat split. repeat constructor; lia.
Qed.

Lemma decoded_ascii_rune (s : bytes) (r : rune) (n : nat) (a : byte) :
  decoded s r n -> ascii a -> r = byteZ a -> exists t, s = a :: t /\ n = 1%nat.
Proof.
  unfold ascii. intros D A; inversion D; subst; intros E;
    pose proof (byteZ_range a).
  - apply byteZ_inj in E. subst. eauto.
  - unfold RuneError in E. lia.
  - exfalso. Z.div_mod_to_equations. lia.
  - exfalso. Z.div_mod_to_equations. lia.
  - exfalso. Z.div_mod_to_equations. lia.
Qed.

Lemma decoded_sparkles (s : bytes) (r : rune) (n : nat) :
  decoded s r n -> r = sparkles ->
  exists t, s = xe2 :: x9c :: xa8 :: t /\ n = 3%nat.
Proof.
  unfold sparkles. intros D; inversion D; subst; intros E.
  - exfalso. Z.div_mod_to_equations. lia.
  - discriminate E.
  - exfalso. Z.div_mod_to_equations. lia.
  - assert (byteZ c0 = 0xE2 /\ byteZ c1 = 0x9C /\ byteZ c2 = 0xA8)
      as (E0 & E1 & E2) by (Z.div_mod_to_equations; lia).
    apply (byteZ_inj c0 xe2) in E0. apply (byteZ_inj c1 x9c) in E1.
    apply (byteZ_inj c2 xa8) in E2. subst. eauto.
  - exfalso. Z.div_mod_to_equations. lia.
Qed.

Lemma decoded_collision (s : bytes) (r : rune) (n : nat) :
  decoded s r n -> r = collision ->
  exists t, s = xf0 :: x9f :: x92 :: xa5 :: t /\ n = 4%nat.
Proof.
  unfold collision. intros D; inversion D; subst; intros E.
  - exfalso. Z.div_mod_to_equations. lia.
  - discriminate E.
  - exfalso. Z.div_mod_to_equations. lia.
  - exfalso. Z.div_mod_to_equations. lia.
  - assert (byteZ c0 = 0xF0 /\ byteZ c1 = 0x9F /\ byteZ c2 = 0x92
            /\ byteZ c3 = 0xA5)
      as (E0 & E1 & E2 & E3) by (Z.div_mod_to_equations; lia).
    apply (byteZ_inj c0 xf0) in E0. apply (byteZ_inj c1 x9f) in E1.
    apply (byteZ_inj c2 x92) in E2. apply (byteZ_inj c3 xa5) in E3.
    subst. eauto.
Qed.

End Utf8Facts.

(** ** Facts about the matcher *)

Lemma strip_Some (l s s' : bytes) : strip l s = Some s' <-> s = l ++ s'.
Proof.
  revert s. induction l as [|a l IH]; intros s; simpl.
  - split; congruence.
  - destruct s as [|b s]; [split; discriminate|].
    destruct (Byte.eqb b a) eqn:E.
    + apply byte_eqb_eq in E. subst. rewrite IH. split; congruence.
    + apply byte_eqb_neq in E. split; [discriminate | congruence].
Qed.

Lemma strip_app (l s : bytes) : strip l (l ++ s) = Some s.
Proof. now apply strip_Some. Qed.

Lemma DecodeRune_ascii (a : byte) (t : bytes) :
  ascii a -> DecodeRune (a :: t) = (byteZ a, 1%nat).
Proof.
  unfold ascii, DecodeRune, first. intros A.
  destruct (Z.ltb_spec (byteZ a) 128); [reflexivity | lia].
Qed.

Lemma step_ascii (a : byte) (s : bytes) (c : caps) (k : cont) :
  ascii a ->
  step (Z.eqb (byteZ a)) s c k
  = match s with
    | [] => None
    | b :: t => if Byte.eqb b a then k t c else None
    end.
Proof.
  intros A. destruct s as [|b t]; [reflexivity|]. unfold step.
  pose proof (DecodeRune_decoded b t) as D.
  destruct (DecodeRune (b :: t)) as [r n]. cbn [fst snd] in D.
  destruct (Z.eqb_spec (byteZ a) r) as [E|NE].
  - destruct (decoded_ascii_rune _ _ _ _ D A (eq_sym E)) as (t' & Es & ->).
    injection Es as -> ->. now rewrite byte_eqb_refl.
  - destruct (Byte.eqb b a) eqn:Eb; [|reflexivity].
    apply byte_eqb_eq in Eb. subst b. exfalso. apply NE.
    inversion D; subst; try reflexivity; unfold ascii in A; lia.
Qed.

Lemma exec_Literal (l : bytes) (s : bytes) (c : caps) (k : cont) :
  Forall ascii l ->
  exec (Literal l) s c k
  = match strip l s with
    | Some s' => k s' c
    | None => None
    end.
Proof.
  intros A. revert s. induction A as [|a l Aa A IH]; intros s.
  - reflexivity.
  - unfold Literal. cbn [fold_right exec]. rewrite step_ascii by assumption.
    destruct s as [|b t]; [reflexivity|]. cbn [strip].
    destruct (Byte.eqb b a); [apply IH | reflexivity].
Qed.

Lemma step_dot (s : bytes) (c : caps) (k : cont) :
  step (fun y => negb (Z.eqb y (byteZ nl))) s c k
  = match s with
    | [] => None
    | b :: _ =>
        if Byte.eqb b nl then None else k (skipn (snd (DecodeRune s)) s) c
    end.
Proof.
  destruct s as [|b t]; [reflexivity|]. unfold step.
  pose proof (DecodeRune_decoded b t) as D.
  destruct (DecodeRune (b :: t)) as [r n]. cbn [fst snd] in *.
  assert (An : ascii nl) by (unfold ascii; cbv; reflexivity).
  destruct (Z.eqb_spec r (byteZ nl)) as [E|NE]; cbn [negb].
  - destruct (decoded_ascii_rune _ _ _ _ D An E) as (t' & Es & ->).
    injection Es as -> ->. now rewrite byte_eqb_refl.
  - destruct (Byte.eqb b nl) eqn:Eb; [|reflexivity].
    apply byte_eqb_eq in Eb. subst b. exfalso. apply NE.
    inversion D; subst; try reflexivity; unfold ascii in An; lia.
Qed.

Lemma exec_PlusLazy (r1 : regex) (s : bytes) (c : caps) (k : cont) :
  exec (PlusLazy r1) s c k = lazy_loop r1 k (S (length s)) s c.
Proof. reflexivity. Qed.

Lemma high_not_ascii_head (b : byte) (t : bytes) :
  high b -> ~ ascii_head (b :: t).
Proof.
  unfold high, ascii_head, ascii. intros H (a & t' & E & A).
  injection E as -> ->. lia.
Qed.

Lemma high_not_nl (b : byte) : high b -> Byte.eqb b nl = false.
Proof.
  intros H. apply byte_eqb_neq. intros ->. unfold high in H.
  cbv in H. now apply H.
Qed.

(** Skipping the continuation bytes of a rune loses no candidate. *)
Lemma scan_high {R : Type} (K : bytes -> option R) (h rest : bytes) :
  (forall s, K s <> None -> ascii_head s) ->
  Forall high h ->
  match K (h ++ rest) with
  | Some r => Some r
  | None => scan K (h ++ rest)
  end
  = match h with
    | [] => match K rest with Some r => Some r | None => scan K rest end
    | _ :: _ => match K rest with Some r => Some r | None => scan K rest end
    end.
Proof.
  intros HK H. induction H as [|b h Hb H IH]; [reflexivity|].
  cbn [app]. destruct (K (b :: h ++ rest)) eqn:E.
  - exfalso. apply (high_not_ascii_head b (h ++ rest) Hb). apply HK. congruence.
  - cbn [scan]. rewrite (high_not_nl b Hb). rewrite IH. now destruct h.
Qed.

Lemma lazy_dot_scan (k : cont) (c : caps) (fuel : nat) (s : bytes) :
  (forall s', k s' c <> None -> ascii_head s') ->
  (length s < fuel)%nat ->
  lazy_loop AnyCharNotNL k fuel s c = scan (fun s' => k s' c) s.
Proof.
  intros HK. revert s. induction fuel as [|fuel IH]; intros s L; [lia|].
  cbn [lazy_loop exec]. rewrite step_dot.
  destruct s as [|b t]; [reflexivity|]. cbn [scan].
  destruct (Byte.eqb b nl); [reflexivity|].
  pose proof (DecodeRune_decoded b t) as D.
  destruct (decoded_split _ _ _ D) as (b' & h & rest & Es & Ln & Hh & Sk).
  injection Es as <- ->. rewrite Sk.
  fold (lazy_loop AnyCharNotNL k).
  rewrite IH by (cbn [length] in L; rewrite length_app in L; lia).
  rewrite (scan_high (fun s' => k s' c) h rest HK Hh). now destruct h.
Qed.

Lemma find_first_high {R : Type} (M : bytes -> option R) (h rest : bytes) :
  (forall s, M s <> None -> ascii_head s) ->
  Forall high h ->
  find_first M (h ++ rest) = find_first M rest.
Proof.
  intros HM H. induction H as [|b h Hb H IH]; [reflexivity|].
  cbn [app find_first]. destruct (M (b :: h ++ rest)) eqn:E.
  - exfalso. apply (high_not_ascii_head b (h ++ rest) Hb). apply HM. congruence.
  - exact IH.
Qed.

Lemma search_find_first (r : regex) (fuel : nat) (s : bytes) :
  (forall s', match_here r s' <> None -> ascii_head s') ->
  (length s <= fuel)%nat ->
  search fuel r s
  = match find_first (match_here r) s with
    | Some (suf, (s', c')) => set_cap 0 (consumed suf s') c'
    | None => []
    end.
Proof.
  intros HM. revert s. induction fuel as [|fuel IH]; intros s L.
  - destruct s; [|cbn [length] in L; lia]. cbn [search find_first].
    destruct (match_here r []) as [[s' c']|]; reflexivity.
  - cbn [search]. destruct s as [|b t].
    + cbn [find_first]. destruct (match_here r []) as [[s' c']|]; reflexivity.
    + cbn [find_first]. destruct (match_here r (b :: t)) as [[s' c']|] eqn:E;
        [reflexivity|].
      pose proof (DecodeRune_decoded b t) as D.
      destruct (decoded_split _ _ _ D) as (b' & h & rest & Es & Ln & Hh & Sk).
      injection Es as <- ->. rewrite Sk.
      rewrite IH by (cbn [length] in L; rewrite length_app in L; lia).
      now rewrite (find_first_high _ h rest HM Hh).
Qed.

Lemma scan_ext {R : Type} (K K' : bytes -> option R) (s : bytes) :
  (forall s', K s' = K' s') -> scan K s = scan K' s.
Proof.
  intros E. induction s as [|b t IH]; [reflexivity|].
  cbn [scan]. rewrite E, IH. reflexivity.
Qed.

Lemma scan_Some {R : Type} (K : bytes -> option R) (s : bytes) (r : R) :
  scan K s = Some r ->
  exists c rest,
    s = c ++ rest /\ plain c /\ K rest = Some r /\
    forall c' rest', s = c' ++ rest' -> c' <> [] ->
                     (length c' < length c)%nat -> K rest' = None.
Proof.
  induction s as [|b t IH]; [discriminate|]. cbn [scan].
  destruct (Byte.eqb b nl) eqn:Eb; [discriminate|].
  apply byte_eqb_neq in Eb.
  destruct (K t) as [r'|] eqn:Ek.
  - intros E. injection E as ->. exists [b], t. repeat split.
    + discriminate.
    + intros [H|[]]. congruence.
    + exact Ek.
    + intros c' rest' _ Hc L. destruct c'; [congruence | cbn in L; lia].
  - intros E. destruct (IH E) as (c & rest & -> & (Hc & Hn) & Hk & Hmin).
    exists (b :: c), rest. repeat split.
    + discriminate.
    + intros [H|H]; [congruence | contradiction].
    + exact Hk.
    + intros c' rest' E' Hc' L. destruct c' as [|b' c']; [congruence|].
      cbn [app] in E'. injection E' as <- E'.
      destruct c' as [|b'' c'].
      * cbn [app] in E'. subst rest'. exact Ek.
      * apply (Hmin (b'' :: c') rest' E'); [discriminate | cbn in *; lia].
Qed.

Lemma scan_None {R : Type} (K : bytes -> option R) (s : bytes) :
  scan K s = None ->
  forall c rest, s = c ++ rest -> plain c -> K rest = None.
Proof.
  induction s as [|b t IH]; intros E c rest Es (Hc & Hn).
  - destruct c; [congruence | discriminate].
  - destruct c as [|b' c]; [congruence|].
    cbn [app] in Es. injection Es as <- Es.
    cbn [scan] in E. destruct (Byte.eqb b nl) eqn:Eb.
    + apply byte_eqb_eq in Eb. subst. exfalso. apply Hn. now left.
    + destruct (K t) eqn:Ek; [discriminate|].
      destruct c as [|b'' c].
      * cbn [app] in Es. now subst.
      * apply (IH E (b'' :: c) rest Es). split; [discriminate|].
        intros H. apply Hn. now right.
Qed.

Lemma find_first_Some {R : Type} (M : bytes -> option R) (s suf : bytes) (x : R) :
  find_first M s = Some (suf, x) ->
  exists pre,
    s = pre ++ suf /\ M suf = Some x /\
    forall pre' suf', s = pre' ++ suf' -> (length pre' < length pre)%nat ->
                      M suf' = None.
Proof.
  induction s as [|b t IH]; cbn [find_first].
  - destruct (M []) eqn:E; [|discriminate]. intros H. injection H as <- <-.
    exists []. repeat split; [exact E | cbn; lia].
  - destruct (M (b :: t)) eqn:E.
    + intros H. injection H as <- <-. exists []. repeat split; [exact E | cbn; lia].
    + intros H. destruct (IH H) as (pre & -> & Hm & Hmin).
      exists (b :: pre). repeat split; [exact Hm|].
      intros pre' suf' E' L. destruct pre' as [|b' pre'].
      * cbn [app] in E'. now subst.
      * cbn [app] in E'. injection E' as <- E'.
        apply (Hmin pre' suf' E'). cbn in L. lia.
Qed.

Lemma find_first_None {R : Type} (M : bytes -> option R) (s : bytes) :
  find_first M s = None ->
  forall pre suf, s = pre ++ suf -> M suf = None.
Proof.
  induction s as [|b t IH]; cbn [find_first]; intros E pre suf Es.
  - destruct pre; [|discriminate]. cbn [app] in Es. subst.
    now destruct (M []).
  - destruct (M (b :: t)) eqn:Em; [discriminate|].
    destruct pre as [|b' pre].
    + cbn [app] in Es. now subst.
    + cbn [app] in Es. injection Es as <- Es. exact (IH E pre suf Es).
Qed.

Lemma Forall_ascii_dec (l : bytes) :
  forallb (fun b => (byteZ b <? 0x80)%Z) l = true -> Forall ascii l.
Proof.
  intros H. apply Forall_forall. intros b Hb.
  rewrite forallb_forall in H. apply Z.ltb_lt. now apply H.
Qed.

Lemma exec_Capture_dot (i : nat) (s : bytes) (c : caps) (k : cont) :
  (forall s' v, k s' (set_cap i v c) <> None -> ascii_head s') ->
  exec (Capture i (PlusLazy AnyCharNotNL)) s c k
  = scan (fun s' => k s' (set_cap i (consumed s s') c)) s.
Proof.
  intros HK. cbn [exec]. 
  change (lazy_loop AnyCharNotNL
            (fun s' c' => k s' (set_cap i (consumed s s') c'))
            (S (length s)) s c
          = scan (fun s' => k s' (set_cap i (consumed s s') c)) s).
  apply (lazy_dot_scan (fun s' c' => k s' (set_cap i (consumed s s') c'))).
  - intros s'. apply HK.
  - lia.
Qed.

Lemma strip_ascii_head (a : byte) (l s s' : bytes) :
  ascii a -> strip (a :: l) s = Some s' -> ascii_head s.
Proof.
  intros A E. apply strip_Some in E. subst. now exists a, (l ++ s').
Qed.

Lemma consumed_app (c rest : bytes) : consumed (c ++ rest) rest = c.
Proof.
  unfold consumed. rewrite length_app.
  replace (length c + length rest - length rest)%nat with (length c + 0)%nat by lia.
  rewrite firstn_app_2. cbn. apply app_nil_r.
Qed.

Lemma exec_Concat (r1 r2 : regex) (s : bytes) (c : caps) (k : cont) :
  exec (Concat r1 r2) s c k = exec r1 s c (fun s' c' => exec r2 s' c' k).
Proof. reflexivity. Qed.

Lemma ascii_fileL1 : Forall ascii fileL1.
Proof. apply Forall_ascii_dec. reflexivity. Qed.
Lemma ascii_fileL2 : Forall ascii fileL2.
Proof. apply Forall_ascii_dec. reflexivity. Qed.
Lemma ascii_fileL3 : Forall ascii fileL3.
Proof. apply Forall_ascii_dec. reflexivity. Qed.

Lemma ascii_dq : ascii dq.
Proof. reflexivity. Qed.

Lemma exec_Literal_head (a : byte) (l : bytes) (r : regex) (s : bytes)
      (c : caps) (k : cont) :
  Forall ascii (a :: l) ->
  exec (Concat (Literal (a :: l)) r) s c k <> None -> ascii_head s.
Proof.
  intros A H. rewrite exec_Concat, exec_Literal in H by assumption.
  destruct (strip (a :: l) s) as [s'|] eqn:E; [|congruence].
  apply (strip_ascii_head a l s s'); [|exact E]. now inversion A.
Qed.

Lemma match_here_fileRe (s : bytes) : match_here fileRe s = file_here s.
Proof.
  unfold match_here, file_here.
  change (repeat [] (S (NumSubexp fileRe))) with [@nil byte; []; []].
  unfold fileRe, Concats. cbn [fold_right].
  fold fileL1 fileL2 fileL3.
  rewrite exec_Concat, exec_Literal by exact ascii_fileL1.
  destruct (strip fileL1 s) as [s1|]; [|reflexivity].
  rewrite exec_Concat, exec_Capture_dot
    by (intros s' v; apply exec_Literal_head; exact ascii_fileL2).
  apply scan_ext. intros s2.
  rewrite exec_Concat, exec_Literal by exact ascii_fileL2.
  destruct (strip fileL2 s2) as [s3|]; [|reflexivity].
  rewrite exec_Concat, exec_Capture_dot
    by (intros s' v; apply exec_Literal_head; exact ascii_fileL3).
  apply scan_ext. intros s4.
  rewrite exec_Concat, exec_Literal by exact ascii_fileL3.
  destruct (strip fileL3 s4) as [s5|]; reflexivity.
Qed.

Lemma app_eq_length (a b a' b' : bytes) :
  a ++ b = a' ++ b' -> length a = length a' -> a = a' /\ b = b'.
Proof.
  revert a'. induction a as [|x a IH]; intros [|y a'] E L; try discriminate.
  - now split.
  - cbn in E, L. injection E as -> E. injection L as L.
    destruct (IH a' E L) as [-> ->]. now split.
Qed.

Lemma file_here_None (s : bytes) :
  file_here s = None ->
  forall c k post, s = file_line c k ++ post -> plain c -> plain k -> False.
Proof.
  unfold file_here, file_line. intros E c k post Es Pc Pk.
  rewrite <- !app_assoc in Es. subst s. rewrite strip_app in E.
  pose proof (scan_None _ _ E c _ eq_refl Pc) as E2. cbn beta in E2.
  rewrite strip_app in E2.
  pose proof (scan_None _ _ E2 k _ eq_refl Pk) as E3. cbn beta in E3.
  rewrite strip_app in E3. discriminate.
Qed.

Lemma file_here_Some (s s5 : bytes) (cs : caps) :
  file_here s = Some (s5, cs) ->
  exists c k,
    s = file_line c k ++ s5 /\ plain c /\ plain k /\ cs = [[]; c; k] /\
    forall c' k' post',
      s = file_line c' k' ++ post' -> plain c' -> plain k' ->
      lex2 (length c) (length k) (length c') (length k').
Proof.
  unfold file_here, file_line. intros E.
  destruct (strip fileL1 s) as [s1|] eqn:E1; [|discriminate].
  apply strip_Some in E1. subst s.
  apply scan_Some in E. destruct E as (c & s2 & -> & Pc & E & Min1).
  destruct (strip fileL2 s2) as [s3|] eqn:E2; [|discriminate].
  apply strip_Some in E2. subst s2.
  apply scan_Some in E. destruct E as (k & s4 & -> & Pk & E & Min2).
  destruct (strip fileL3 s4) as [s5'|] eqn:E3; [|discriminate].
  apply strip_Some in E3. subst s4. injection E as -> <-.
  exists c, k. rewrite !consumed_app. rewrite <- !app_assoc.
  repeat split; try apply Pc; try apply Pk.
  intros c' k' post' Es Pc' Pk'. rewrite <- !app_assoc in Es.
  apply app_inv_head in Es.
  destruct (Nat.lt_trichotomy (length c') (length c)) as [L|[L|L]].
  - exfalso. pose proof (Min1 c' _ Es (proj1 Pc') L) as N. cbn beta in N.
    rewrite strip_app in N.
    pose proof (scan_None _ _ N k' _ eq_refl Pk') as N'. cbn beta in N'.
    rewrite strip_app in N'. discriminate.
  - right. split; [now symmetry|].
    destruct (app_eq_length _ _ _ _ Es (eq_sym L)) as [-> Es'].
    apply app_inv_head in Es'.
    destruct (Nat.le_gt_cases (length k) (length k')) as [Lk|Lk]; [exact Lk|].
    exfalso. pose proof (Min2 k' _ Es' (proj1 Pk') Lk) as N. cbn beta in N.
    rewrite strip_app in N. discriminate.
  - left. exact L.
Qed.

Lemma file_here_ascii_head (s : bytes) :
  match_here fileRe s <> None -> ascii_head s.
Proof.
  rewrite match_here_fileRe. unfold file_here. intros H.
  destruct (strip fileL1 s) as [s1|] eqn:E; [|congruence].
  apply (strip_ascii_head _ _ _ _ (Forall_inv ascii_fileL1) E).
Qed.

Lemma FindSubmatch_fileRe_None (out : bytes) :
  find_first (match_here fileRe) out = None ->
  (forall pre c k post, ~ FileMatch out pre c k post)
  /\ FindSubmatch fileRe out = [].
Proof.
  intros E. split.
  - intros pre c k post (Es & Pc & Pk).
    pose proof (find_first_None _ _ E pre _ Es) as N.
    rewrite match_here_fileRe in N.
    exact (file_here_None _ N c k post eq_refl Pc Pk).
  - unfold FindSubmatch.
    rewrite search_find_first by (exact file_here_ascii_head || lia).
    now rewrite E.
Qed.

Lemma FindSubmatch_fileRe_Some (out suf s' : bytes) (cs : caps) :
  find_first (match_here fileRe) out = Some (suf, (s', cs)) ->
  exists pre c k,
    FileMatch out pre c k s'
    /\ (forall pre' c' k' post',
           FileMatch out pre' c' k' post' ->
           lex3 (length pre) (length c) (length k)
                (length pre') (length c') (length k'))
    /\ FindSubmatch fileRe out = [file_line c k; c; k].
Proof.
  intros E. destruct (find_first_Some _ _ _ _ E) as (pre & Eo & Em & Min).
  rewrite match_here_fileRe in Em.
  destruct (file_here_Some _ _ _ Em) as (c & k & Es & Pc & Pk & -> & Min2).
  exists pre, c, k. split; [|split].
  - repeat split; try apply Pc; try apply Pk. now rewrite Eo, Es.
  - intros pre' c' k' post' (Eo' & Pc' & Pk').
    destruct (Nat.lt_trichotomy (length pre') (length pre)) as [L|[L|L]].
    + exfalso. pose proof (Min pre' _ Eo' L) as N.
      rewrite match_here_fileRe in N.
      exact (file_here_None _ N c' k' post' eq_refl Pc' Pk').
    + right. split; [now symmetry|].
      rewrite Eo in Eo'.
      destruct (app_eq_length _ _ _ _ Eo' (eq_sym L)) as [_ Es'].
      exact (Min2 c' k' post' Es' Pc' Pk').
    + left. exact L.
  - unfold FindSubmatch.
    rewrite search_find_first by (exact file_here_ascii_head || lia).
    rewrite E. subst suf. now rewrite consumed_app.
Qed.

Lemma step_class (s : bytes) (c : caps) (k : cont) :
  step (fun y => existsb (Z.eqb y) [collision; sparkles]) s c k
  = match marker_here s with
    | Some s' => k s' c
    | None => None
    end.
Proof.
  destruct s as [|b t]; [reflexivity|]. unfold step.
  pose proof (DecodeRune_decoded b t) as D.
  destruct (DecodeRune (b :: t)) as [r n] eqn:Ed. cbn [fst snd] in D.
  cbn [existsb]. rewrite orb_false_r.
  destruct (Z.eqb_spec r collision) as [E1|N1]; cbn [orb].
  - destruct (decoded_collision _ _ _ D E1) as (t' & -> & ->). reflexivity.
  - destruct (Z.eqb_spec r sparkles) as [E2|N2].
    + destruct (decoded_sparkles _ _ _ D E2) as (t' & -> & ->). reflexivity.
    + unfold marker_here.
      destruct (strip collision_utf8 (b :: t)) as [s'|] eqn:S1.
      { apply strip_Some in S1. rewrite S1 in Ed. cbv in Ed.
        injection Ed as <- <-. now elim N1. }
      destruct (strip sparkles_utf8 (b :: t)) as [s'|] eqn:S2; [|reflexivity].
      apply strip_Some in S2. rewrite S2 in Ed. cbv in Ed.
      injection Ed as <- <-. now elim N2.
Qed.

Lemma ascii_caL1 : Forall ascii caL1.
Proof. apply Forall_ascii_dec. reflexivity. Qed.

Lemma ascii_caL2 : Forall ascii caL2.
Proof. apply Forall_ascii_dec. reflexivity. Qed.

Lemma ascii_nl : ascii nl.
Proof. reflexivity. Qed.

Lemma match_here_caRe (s : bytes) : match_here caRe s = ca_here s.
Proof.
  unfold match_here, ca_here.
  change (repeat [] (S (NumSubexp caRe))) with [@nil byte; []].
  unfold caRe, Concats. cbn [fold_right].
  fold caL1 caL2.
  rewrite exec_Concat, exec_Literal by exact ascii_caL1.
  destruct (strip caL1 s) as [s1|]; [|reflexivity].
  rewrite exec_Concat, exec_Capture_dot
    by (intros s' v; apply exec_Literal_head; exact ascii_caL2).
  apply scan_ext. intros s2.
  rewrite exec_Concat, exec_Literal by exact ascii_caL2.
  destruct (strip caL2 s2) as [s3|]; [|reflexivity].
  rewrite exec_Concat. cbn [exec]. rewrite step_class.
  destruct (marker_here s3) as [s4|]; [|reflexivity].
  rewrite (step_ascii nl) by exact ascii_nl.
  destruct s4 as [|b s5]; [reflexivity|]. cbn [strip].
  destruct (Byte.eqb b nl); reflexivity.
Qed.

Lemma marker_here_Some (s s' : bytes) :
  marker_here s = Some s' <->
  exists marker,
    (marker = collision_utf8 \/ marker = sparkles_utf8) /\ s = marker ++ s'.
Proof.
  unfold marker_here. split.
  - destruct (strip collision_utf8 s) as [s1|] eqn:E1.
    + intros H. injection H as ->. apply strip_Some in E1. eauto.
    + intros E2. apply strip_Some in E2. eauto.
  - intros (m & [->| ->] & ->).
    + now rewrite strip_app.
    + reflexivity.
Qed.

Lemma ca_here_None (s : bytes) :
  ca_here s = None ->
  forall c marker post,
    marker = collision_utf8 \/ marker = sparkles_utf8 ->
    s = ca_line c marker ++ post -> plain c -> False.
Proof.
  unfold ca_here, ca_line. intros E c marker post Hm Es Pc.
  rewrite <- !app_assoc in Es. subst s. rewrite strip_app in E.
  pose proof (scan_None _ _ E c _ eq_refl Pc) as E2. cbn beta in E2.
  rewrite strip_app in E2.
  assert (M : marker_here (marker ++ [nl] ++ post) = Some ([nl] ++ post))
    by (apply marker_here_Some; eauto).
  rewrite M in E2. rewrite strip_app in E2. discriminate.
Qed.

Lemma ca_here_Some (s s5 : bytes) (cs : caps) :
  ca_here s = Some (s5, cs) ->
  exists c marker,
    (marker = collision_utf8 \/ marker = sparkles_utf8)
    /\ s = ca_line c marker ++ s5 /\ plain c /\ cs = [[]; c]
    /\ forall c' marker' post',
        marker' = collision_utf8 \/ marker' = sparkles_utf8 ->
        s = ca_line c' marker' ++ post' -> plain c' ->
        (length c <= length c')%nat.
Proof.
  unfold ca_here, ca_line. intros E.
  destruct (strip caL1 s) as [s1|] eqn:E1; [|discriminate].
  apply strip_Some in E1. subst s.
  apply scan_Some in E. destruct E as (c & s2 & -> & Pc & E & Min1).
  destruct (strip caL2 s2) as [s3|] eqn:E2; [|discriminate].
  apply strip_Some in E2. subst s2.
  destruct (marker_here s3) as [s4|] eqn:E3; [|discriminate].
  apply marker_here_Some in E3. destruct E3 as (marker & Hm & ->).
  destruct (strip [nl] s4) as [s5'|] eqn:E4; [|discriminate].
  apply strip_Some in E4. subst s4. injection E as -> <-.
  exists c, marker. rewrite consumed_app. rewrite <- !app_assoc.
  repeat split; try apply Pc; try exact Hm.
  intros c' marker' post' Hm' Es Pc'. rewrite <- !app_assoc in Es.
  apply app_inv_head in Es.
  destruct (Nat.le_gt_cases (length c) (length c')) as [L|L]; [exact L|].
  exfalso. pose proof (Min1 c' _ Es (proj1 Pc') L) as N. cbn beta in N.
  rewrite strip_app in N.
  assert (M : marker_here (marker' ++ [nl] ++ post') = Some ([nl] ++ post'))
    by (apply marker_here_Some; eauto).
  rewrite M in N. rewrite strip_app in N. discriminate.
Qed.

Lemma ca_here_ascii_head (s : bytes) :
  match_here caRe s <> None -> ascii_head s.
Proof.
  rewrite match_here_caRe. unfold ca_here. intros H.
  destruct (strip caL1 s) as [s1|] eqn:E; [|congruence].
  apply (strip_ascii_head _ _ _ _ (Forall_inv ascii_caL1) E).
Qed.

Lemma FindSubmatch_caRe_None (out : bytes) :
  find_first (match_here caRe) out = None ->
  (forall pre c post, ~ CAMatch out pre c post)
  /\ FindSubmatch caRe out = [].
Proof.
  intros E. split.
  - intros pre c post (marker & Hm & Es & Pc).
    pose proof (find_first_None _ _ E pre _ Es) as N.
    rewrite match_here_caRe in N.
    exact (ca_here_None _ N c marker post Hm eq_refl Pc).
  - unfold FindSubmatch.
    rewrite search_find_first by (exact ca_here_ascii_head || lia).
    now rewrite E.
Qed.

Lemma FindSubmatch_caRe_Some (out suf s' : bytes) (cs : caps) :
  find_first (match_here caRe) out = Some (suf, (s', cs)) ->
  exists pre c whole,
    CAMatch out pre c s'
    /\ (forall pre' c' post',
           CAMatch out pre' c' post' ->
           lex2 (length pre) (length c) (length pre') (length c'))
    /\ FindSubmatch caRe out = [whole; c].
Proof.
  intros E. destruct (find_first_Some _ _ _ _ E) as (pre & Eo & Em & Min).
  rewrite match_here_caRe in Em.
  destruct (ca_here_Some _ _ _ Em) as (c & marker & Hm & Es & Pc & -> & Min2).
  exists pre, c, (ca_line c marker). split; [|split].
  - exists marker. repeat split; try apply Pc; try exact Hm. now rewrite Eo, Es.
  - intros pre' c' post' (marker' & Hm' & Eo' & Pc').
    destruct (Nat.lt_trichotomy (length pre') (length pre)) as [L|[L|L]].
    + exfalso. pose proof (Min pre' _ Eo' L) as N.
      rewrite match_here_caRe in N.
      exact (ca_here_None _ N c' marker' post' Hm' eq_refl Pc').
    + right. split; [now symmetry|].
      rewrite Eo in Eo'.
      destruct (app_eq_length _ _ _ _ Eo' (eq_sym L)) as [_ Es'].
      exact (Min2 c' marker' post' Hm' Es' Pc').
    + left. exact L.
  - unfold FindSubmatch.
    rewrite search_find_first by (exact ca_here_ascii_head || lia).
    rewrite E. subst suf. now rewrite consumed_app.
Qed.

Lemma parseCA_cases (out : bytes) :
  (exists pre c post,
      CAMatch out pre c post
      /\ (forall pre' c' post',
             CAMatch out pre' c' post' ->
             lex2 (length pre) (length c) (length pre') (length c'))
      /\ parseCA out = c)
  \/ ((forall pre c post, ~ CAMatch out pre c post) /\ parseCA out = []).
Proof.
  unfold parseCA.
  destruct (find_first (match_here caRe) out) as [[suf [s' cs]]|] eqn:E.
  - left. destruct (FindSubmatch_caRe_Some _ _ _ _ E)
      as (pre & c & whole & M & Min & ->).
    exists pre, c, s'. repeat split; try apply M. exact Min.
  - right. destruct (FindSubmatch_caRe_None _ E) as [N ->].
    split; [exact N | reflexivity].
Qed.

(** ** Facts about bytes.Contains *)

Lemma HasPrefix_spec (s prefix : bytes) :
  BytesPkg.HasPrefix s prefix = true <-> exists rest, s = prefix ++ rest.
Proof.
  revert s. induction prefix as [|p prefix IH]; intros s.
  - split; [intros _; now exists s | intros _; now destruct s].
  - destruct s as [|c s]; cbn [BytesPkg.HasPrefix].
    + split; [discriminate | intros (rest & E); discriminate].
    + rewrite andb_true_iff, byte_eqb_eq, IH. split.
      * intros (-> & rest & ->). now exists rest.
      * intros (rest & E). injection E as -> ->. split; [reflexivity | now exists rest].
Qed.

Lemma Index_range (s sep : bytes) :
  (BytesPkg.Index s sep = -1 \/ 0 <= BytesPkg.Index s sep)%Z.
Proof.
  induction s as [|c s IH]; cbn [BytesPkg.Index].
  - destruct (BytesPkg.HasPrefix [] sep); lia.
  - destruct (BytesPkg.HasPrefix (c :: s) sep); [lia|].
    destruct (Z.ltb_spec (BytesPkg.Index s sep) 0); lia.
Qed.

Lemma Index_found (s sep : bytes) :
  (0 <= BytesPkg.Index s sep)%Z <-> Substring sep s.
Proof.
  unfold Substring. induction s as [|c s IH]; cbn [BytesPkg.Index].
  - destruct (BytesPkg.HasPrefix [] sep) eqn:E.
    + apply HasPrefix_spec in E. destruct E as (rest & E).
      split; [intros _; now exists [], rest | lia].
    + split; [lia|]. intros (pre & post & E2).
      destruct pre; [|discriminate]. cbn [app] in E2.
      assert (BytesPkg.HasPrefix [] sep = true)
        by (apply HasPrefix_spec; now exists post).
      congruence.
  - destruct (BytesPkg.HasPrefix (c :: s) sep) eqn:E.
    + apply HasPrefix_spec in E. destruct E as (rest & E).
      split; [intros _; now exists [], rest | lia].
    + pose proof (Index_range s sep) as R.
      destruct (Z.ltb_spec (BytesPkg.Index s sep) 0) as [L|L].
      * split; [lia|]. intros (pre & post & E2).
        destruct pre as [|c' pre].
        -- cbn [app] in E2.
           assert (BytesPkg.HasPrefix (c :: s) sep = true)
             by (apply HasPrefix_spec; now exists post).
           congruence.
        -- cbn [app] in E2. injection E2 as -> E2.
           assert (0 <= BytesPkg.Index s sep)%Z by (apply IH; now exists pre, post).
           lia.
      * split; [|lia]. intros _. apply IH in L. destruct L as (pre & post & ->).
        now exists (c :: pre), post.
Qed.

Lemma Contains_spec (b sub : bytes) :
  BytesPkg.Contains b sub = true <-> Substring sub b.
Proof.
  unfold BytesPkg.Contains. rewrite <- Index_found.
  pose proof (Index_range b sub).
  destruct (Z.eqb_spec (BytesPkg.Index b sub) (-1)); cbn [negb]; split; intros; 
    try discriminate; try reflexivity; lia.
Qed.

(** ** Facts about path/filepath *)

Lemma Clean_nonempty (path : bytes) : Filepath.Clean path <> [].
Proof.
  unfold Filepath.Clean. destruct path as [|c t]; [discriminate|].
  destruct (if Filepath.IsPathSeparator c then _ else _); discriminate.
Qed.

Lemma element_app (rest : bytes) :
  fst (Filepath.element rest) ++ snd (Filepath.element rest) = rest.
Proof.
  induction rest as [|c rest IH]; [reflexivity|]. cbn [Filepath.element].
  destruct (Filepath.IsPathSeparator c); [reflexivity|].
  destruct (Filepath.element rest) as [e r]. cbn [fst snd app] in *. now f_equal.
Qed.

Lemma element_slash (rest : bytes) :
  Filepath.element (rest ++ [slash])
  = (fst (Filepath.element rest), snd (Filepath.element rest) ++ [slash]).
Proof.
  induction rest as [|c rest IH]; [reflexivity|]. cbn [app Filepath.element].
  destruct (Filepath.IsPathSeparator c); [reflexivity|].
  rewrite IH. destruct (Filepath.element rest) as [e r]. reflexivity.
Qed.

Lemma element_shorter (c : byte) (rest : bytes) :
  Filepath.IsPathSeparator c = false ->
  (length (snd (Filepath.element (c :: rest))) <= length rest)%nat.
Proof.
  intros H. pose proof (element_app (c :: rest)) as E.
  cbn [Filepath.element] in *. rewrite H in *.
  destruct (Filepath.element rest) as [e r]. cbn [fst snd] in *.
  apply (f_equal (@length byte)) in E. cbn [app length] in E.
  rewrite length_app in E. lia.
Qed.

Lemma end_or_sep_slash (rest : bytes) :
  Filepath.end_or_sep (rest ++ [slash]) = Filepath.end_or_sep rest.
Proof. destruct rest; reflexivity. Qed.

Lemma clean_loop_nil (fuel : nat) (rooted : bool) (buf : bytes) (dotdot : nat) :
  Filepath.clean_loop fuel rooted [] buf dotdot = buf.
Proof. destruct fuel; reflexivity. Qed.

(** A trailing separator is an empty path element: it changes nothing. *)
Lemma clean_loop_slash (fuel' : nat) :
  forall (fuel : nat) (rooted : bool) (rest buf : bytes) (dotdot : nat),
    (length rest <= fuel')%nat -> (length rest < fuel)%nat ->
    Filepath.clean_loop fuel rooted (rest ++ [slash]) buf dotdot
    = Filepath.clean_loop fuel' rooted rest buf dotdot.
Proof.
  induction fuel' as [|fuel' IH]; intros fuel rooted rest buf dotdot L' L.
  - destruct rest; [|cbn [length] in L'; lia].
    destruct fuel; [lia|]. cbn. apply clean_loop_nil.
  - destruct fuel as [|fuel]; [lia|].
    destruct rest as [|c rest1].
    + cbn. apply clean_loop_nil.
    + cbn [length] in L, L'. cbn [app Filepath.clean_loop].
      destruct (Filepath.IsPathSeparator c) eqn:Hc.
      { apply IH; lia. }
      rewrite end_or_sep_slash.
      destruct (Byte.eqb c dot && Filepath.end_or_sep rest1).
      { apply IH; lia. }
      assert (T : Byte.eqb (hd slash (rest1 ++ [slash])) dot
                  && Filepath.end_or_sep (tl (rest1 ++ [slash]))
                  = Byte.eqb (hd slash rest1) dot
                    && Filepath.end_or_sep (tl rest1)).
      { destruct rest1 as [|c1 rest2]; [reflexivity|].
        cbn [app hd tl]. now rewrite end_or_sep_slash. }
      rewrite <- andb_assoc, T, andb_assoc.
      destruct (Byte.eqb c dot && Byte.eqb (hd slash rest1) dot
                && Filepath.end_or_sep (tl rest1)) eqn:Hdd.
      { assert (T2 : tl (rest1 ++ [slash]) = tl rest1 ++ [slash]).
        { destruct rest1 as [|c1 rest2]; [|reflexivity].
          cbn in Hdd. rewrite andb_false_r in Hdd. discriminate. }
        rewrite T2.
        assert (length (tl rest1) <= length rest1)%nat
          by (destruct rest1; cbn; lia).
        destruct (length buf) eqn:Lb; cbn [Nat.ltb Nat.leb];
          repeat match goal with
                 | |- context [if ?b then _ else _] => destruct b
                 end; apply IH; lia. }
      change (c :: rest1 ++ [slash]) with ((c :: rest1) ++ [slash]).
      rewrite element_slash.
      pose proof (element_shorter c rest1 Hc).
      destruct (Filepath.element (c :: rest1)) as [e r]. cbn [fst snd] in *.
      apply IH; lia.
Qed.

Lemma Clean_trailing_slash (d : bytes) :
  d <> [] -> Filepath.Clean (d ++ [slash]) = Filepath.Clean d.
Proof.
  destruct d as [|c t]; [congruence|]. intros _.
  unfold Filepath.Clean. cbn [app tl length].
  destruct (Filepath.IsPathSeparator c).
  - rewrite (clean_loop_slash (S (length t))) by (rewrite ?length_app; cbn; lia).
    reflexivity.
  - change (c :: t ++ [slash]) with ((c :: t) ++ [slash]).
    rewrite (clean_loop_slash (S (length t)))
      by (rewrite ?length_app; cbn; lia).
    reflexivity.
Qed.

Lemma Join_dir_empty (d : bytes) :
  d <> [] -> Filepath.Join [d; []] = Filepath.Clean d.
Proof.
  intros H. destruct d as [|c t]; [congruence|].
  cbn [Filepath.Join BytesPkg.Join]. rewrite app_nil_r.
  now apply Clean_trailing_slash.
Qed.

Lemma Join_dir_nonempty (d f : bytes) :
  d <> [] -> Filepath.Join [d; f] <> [].
Proof.
  intros H. destruct d as [|c t]; [congruence|].
  cbn [Filepath.Join]. apply Clean_nonempty.
Qed.

Lemma IsAbs_nil : Filepath.IsAbs [] = false.
Proof. reflexivity. Qed.

(** ** Facts about Exec *)

(** With the verb %w in place of %s the exit error would be found by
    [errors.As]. *)
Lemma Errorf_w_recoverable (prefix : bytes) (status : Z) (stderr : bytes) :
  As_ExitError (Errorf [text prefix; verb_w (opError (ExitError status stderr))])
  = Some (status, stderr).
Proof. reflexivity. Qed.

Lemma Errorf_s_flat (prefix : bytes) (e : error) :
  Errorf [text prefix; verb_s (opError e)] = errorString (prefix ++ Error e).
Proof. unfold Errorf, Sprintf. cbn. now rewrite app_nil_r. Qed.

Lemma Exec_cmd (p : params) :
  withDir
    (Command (str "mkcert")
       ((let args := [] in
         let args := if negb (bytes_eqb (certFile p) [])
                     then args ++ [str "-cert-file"; certFile p] else args in
         let args := if negb (bytes_eqb (keyFile p) [])
                     then args ++ [str "-key-file"; keyFile p] else args in
         args) ++ domains p))
    (dir p)
  = command_line p.
Proof.
  unfold command_line, withDir, Command. cbn [Path Args Dir].
  destruct (certFile p) as [|c cf]; destruct (keyFile p) as [|k kf]; reflexivity.
Qed.

Lemma Exec_no_domains_eq (opts : list Opt) :
  domains (params_of opts) = [] ->
  Exec opts = Ret (Cert.zero, Some ErrNoDomains).
Proof.
  unfold Exec, params_of. intros ->. reflexivity.
Qed.

Lemma length_eqb_0 {A : Type} (l : list A) :
  l <> [] -> (length l =? 0)%nat = false.
Proof. destruct l; [congruence | reflexivity]. Qed.

Lemma Exec_spawns (opts : list Opt) :
  domains (params_of opts) <> [] ->
  exists k, Exec opts = CombinedOutput (command_line (params_of opts)) k
            /\ (forall out e,
                   k (out, Some e)
                   = Ret (Cert.zero,
                          Some (Errorf [text (str "mkcert: "); verb_s (opError e)])))
            /\ (forall out,
                   k (out, None)
                   = Ret ({| Cert.CARoot := parseCA out;
                             Cert.Trusted := parseTrusted out;
                             Cert.Domains := domains (params_of opts);
                             Cert.File :=
                               resolve (dir (params_of opts)) (fst (parseFiles out));
                             Cert.KeyFile :=
                               resolve (dir (params_of opts)) (snd (parseFiles out)) |},
                          if negb (parseTrusted out) && requireTrust (params_of opts)
                          then Some (not_trusted (parseCA out))
                          else None)).
Proof.
  intros H. unfold Exec. fold (params_of opts).
  rewrite (length_eqb_0 _ H). cbv zeta.
  pose proof (Exec_cmd (params_of opts)) as C. cbv zeta in C. rewrite C. clear C.
  eexists. split; [reflexivity|]. split; [reflexivity|].
  intros out. destruct (parseFiles out) as [cf kf]. cbn [fst snd].
  cbn [Dir command_line Cert.File Cert.KeyFile Cert.Trusted Cert.CARoot
       Cert.withFile Cert.withKeyFile].
  unfold resolve.
  destruct (dir (params_of opts)) as [|d0 d]; cbn [bytes_eqb negb].
  - reflexivity.
  - destruct (Filepath.IsAbs cf) eqn:E1, (Filepath.IsAbs kf) eqn:E2;
      cbn [negb Cert.File Cert.KeyFile Cert.Trusted Cert.CARoot
           Cert.withFile Cert.withKeyFile];
      rewrite ?E1, ?E2;
      cbn [negb Cert.File Cert.KeyFile Cert.Trusted Cert.CARoot Cert.Domains
           Cert.withFile Cert.withKeyFile];
      reflexivity.
Qed.

Lemma Exec_run_success (opts : list Opt) (sys : system) (out : bytes) :
  domains (params_of opts) <> [] ->
  sys (command_line (params_of opts)) = (out, None) ->
  run sys (Exec opts)
  = (({| Cert.CARoot := parseCA out;
         Cert.Trusted := parseTrusted out;
         Cert.Domains := domains (params_of opts);
         Cert.File := resolve (dir (params_of opts)) (fst (parseFiles out));
         Cert.KeyFile := resolve (dir (params_of opts)) (snd (parseFiles out)) |},
      if negb (parseTrusted out) && requireTrust (params_of opts)
      then Some (not_trusted (parseCA out))
      else None),
     [command_line (params_of opts)]).
Proof.
  intros H S. destruct (Exec_spawns opts H) as (k & -> & _ & K).
  cbn [run]. rewrite S, K. reflexivity.
Qed.

Lemma Exec_run_failure (opts : list Opt) (sys : system) (out : bytes) (e : error) :
  domains (params_of opts) <> [] ->
  sys (command_line (params_of opts)) = (out, Some e) ->
  run sys (Exec opts)
  = ((Cert.zero, Some (errorString (str "mkcert: " ++ Error e))),
     [command_line (params_of opts)]).
Proof.
  intros H S. destruct (Exec_spawns opts H) as (k & -> & K & _).
  cbn [run]. rewrite S, K, Errorf_s_flat. reflexivity.
Qed.

Lemma resolve_nonempty (d f : bytes) : f <> [] -> resolve d f <> [].
Proof.
  intros H. unfold resolve. destruct d as [|d0 d]; [exact H|].
  destruct (Filepath.IsAbs f); [exact H|]. now apply Join_dir_nonempty.
Qed.

Lemma parseTrusted_false (out : bytes) :
  parseTrusted out = false <-> Substring (str "not installed") out.
Proof.
  unfold parseTrusted. rewrite negb_false_iff. apply Contains_spec.
Qed.

Lemma parseFiles_match (out pre c k post : bytes) :
  FileMatch out pre c k post ->
  exists pre' c' k' post',
    FileMatch out pre' c' k' post' /\ parseFiles out = (c', k').
Proof.
  intros M. unfold parseFiles.
  destruct (find_first (match_here fileRe) out) as [[suf [s' cs]]|] eqn:E.
  - destruct (FindSubmatch_fileRe_Some _ _ _ _ E)
      as (pre' & c' & k' & M' & _ & ->).
    now exists pre', c', k', s'.
  - destruct (FindSubmatch_fileRe_None _ E) as [N _].
    elim (N pre c k post M).
Qed.

Lemma parseFiles_no_match (out : bytes) :
  (forall pre c k post, ~ FileMatch out pre c k post) ->
  parseFiles out = ([], []).
Proof.
  intros N. unfold parseFiles.
  destruct (find_first (match_here fileRe) out) as [[suf [s' cs]]|] eqn:E.
  - destruct (FindSubmatch_fileRe_Some _ _ _ _ E)
      as (pre' & c' & k' & M' & _ & _).
    elim (N _ _ _ _ M').
  - destruct (FindSubmatch_fileRe_None _ E) as [_ ->]. reflexivity.
Qed.

Lemma parseCA_no_match (out : bytes) :
  (forall pre c post, ~ CAMatch out pre c post) -> parseCA out = [].
Proof.
  intros N. destruct (parseCA_cases out)
    as [(pre' & c' & post' & M' & _ & E) | (_ & E)].
  - elim (N _ _ _ M').
  - exact E.
Qed.

(** Deciding on a concrete output that a pattern has no match. *)
Lemma no_FileMatch_dec (out : bytes) :
  find_first (match_here fileRe) out = None ->
  forall pre c k post, ~ FileMatch out pre c k post.
Proof. intros E. apply (FindSubmatch_fileRe_None out E). Qed.

Lemma no_CAMatch_dec (out : bytes) :
  find_first (match_here caRe) out = None ->
  forall pre c post, ~ CAMatch out pre c post.
Proof. intros E. apply (FindSubmatch_caRe_None out E). Qed.

(** ** Facts about options *)

Lemma last_cons {A : Type} (v d : A) (l : list A) : last (v :: l) d = last l v.
Proof.
  revert v d. induction l as [|x l IH]; intros v d; [reflexivity|].
  change (last (v :: x :: l) d) with (last (x :: l) d).
  now rewrite (IH x d), (IH x v).
Qed.

Lemma last_setting_cons {A : Type} (sel : option_call -> option A) (d : A)
      (c : option_call) (cs : list option_call) :
  last_setting sel d (c :: cs)
  = last_setting sel (match sel c with Some v => v | None => d end) cs.
Proof.
  unfold last_setting, settings. cbn [flat_map].
  destruct (sel c) as [v|]; [|reflexivity].
  cbn [app]. apply last_cons.
Qed.

Lemma apply_opts_calls (cs : list option_call) (p : params) :
  apply_opts (map option_of cs) p
  = {| dir := last_setting sets_dir (dir p) cs;
       certFile := last_setting sets_certFile (certFile p) cs;
       keyFile := last_setting sets_keyFile (keyFile p) cs;
       domains := last_setting sets_domains (domains p) cs;
       requireTrust := last_setting sets_requireTrust (requireTrust p) cs |}.
Proof.
  revert p. induction cs as [|c cs IH]; intros p.
  - destruct p. reflexivity.
  - cbn [map apply_opts fold_left]. fold (apply_opts (map option_of cs)).
    rewrite IH, !last_setting_cons. destruct c; reflexivity.
Qed.

Lemma Exec_params (opts opts' : list Opt) :
  params_of opts = params_of opts' -> Exec opts = Exec opts'.
Proof.
  unfold Exec. fold (params_of opts) (params_of opts'). now intros ->.
Qed.

(** ** The model on concrete inputs *)

Example parseFiles_sample :
  parseFiles Sample.trusted = (Sample.cert_path, Sample.key_path).
Proof. vm_compute. reflexivity. Qed.

(** The groups are lazy and the leftmost line wins. *)
Example parseFiles_lazy_leftmost :
  parseFiles (file_line (str "a" ++ [dq] ++ str " b") (str "k")
              ++ str " and the key at " ++ [dq] ++ str "z" ++ [dq] ++ [nl]
              ++ file_line (str "c") (str "d"))
  = (str "a" ++ [dq] ++ str " b", str "k").
Proof. vm_compute. reflexivity. Qed.

(** A group does not extend over a newline. *)
Example parseFiles_newline :
  parseFiles (fileL1 ++ str "a" ++ [nl] ++ fileL2 ++ str "k" ++ fileL3)
  = ([], []).
Proof. vm_compute. reflexivity. Qed.

Example parseCA_sample :
  parseCA Sample.trusted = str "/home/dev/.local/share/mkcert".
Proof. vm_compute. reflexivity. Qed.

(** A group may hold any bytes but the newline, also multi-byte runes. *)
Example parseCA_runes :
  parseCA (ca_line (sparkles_utf8 ++ [xff] ++ str "x") collision_utf8)
  = sparkles_utf8 ++ [xff] ++ str "x".
Proof. vm_compute. reflexivity. Qed.

(** The line must end with one of the two markers and a newline. *)
Example parseCA_no_marker :
  parseCA (caL1 ++ str "/ca" ++ caL2 ++ str "!" ++ [nl]) = [].
Proof. vm_compute. reflexivity. Qed.

Example Clean_samples :
  map Filepath.Clean
      [str "a/b/../c"; str "/../a"; str "../../a"; str "a//b/./c/"; [];
       str "/"; str "a/.."; str "/tmp/mkcert/"; str "a/b/../../.."]
  = [str "a/c"; str "/a"; str "../../a"; str "a/b/c"; str ".";
     str "/"; str "."; str "/tmp/mkcert"; str ".."].
Proof. vm_compute. reflexivity. Qed.

Example Exec_sample :
  run (Sample.prints Sample.trusted) (Exec Sample.opts)
  = (({| Cert.CARoot := str "/home/dev/.local/share/mkcert";
         Cert.Trusted := true;
         Cert.Domains := [str "localhost"];
         Cert.File := str "/tmp/mkcert/localhost.pem";
         Cert.KeyFile := str "/tmp/mkcert/localhost-key.pem" |}, None),
     [ {| Path := str "mkcert"; Args := [str "mkcert"; str "localhost"];
          Dir := str "/tmp/mkcert" |} ]).
Proof. vm_compute. reflexivity. Qed.

Example Exec_sample_failure :
  fst (run (Sample.fails 1 (str "boom") []) (Exec Sample.opts))
  = (Cert.zero, Some (errorString (str "mkcert: exit status 1"))).
Proof. vm_compute. reflexivity. Qed.

(** * Part III: the claims *)

(** C1: when trust is required and the parsed output contains "not
    installed" and a match of the certificate/key pattern, [Exec] returns
    both an error (that the CA is not trusted and mkcert -install is to be
    run) and a certificate whose File and KeyFile are the non-empty paths
    of the first match, resolved against the working directory. *)
Theorem Exec_require_trust_degraded_success
        (opts : list Opt) (sys : system) (out : bytes) :
  requireTrust (params_of opts) = true ->
  domains (params_of opts) <> [] ->
  sys (command_line (params_of opts)) = (out, None) ->
  Substring (str "not installed") out ->
  (exists pre c k post, FileMatch out pre c k post) ->
  exists cert e pre c k post,
    fst (run sys (Exec opts)) = (cert, Some e)
    /\ e = not_trusted (parseCA out)
    /\ FileMatch out pre c k post
    /\ parseFiles out = (c, k)
    /\ Cert.File cert = resolve (dir (params_of opts)) c
    /\ Cert.KeyFile cert = resolve (dir (params_of opts)) k
    /\ Cert.File cert <> []
    /\ Cert.KeyFile cert <> [].
Proof.
  intros RT D S NI (pre & c & k & post & M).
  destruct (parseFiles_match out pre c k post M)
    as (pre' & c' & k' & post' & M' & PF).
  rewrite (Exec_run_success opts sys out D S). cbn [fst].
  apply parseTrusted_false in NI. rewrite NI, RT. cbn [negb andb].
  eexists _, _, pre', c', k', post'.
  split; [reflexivity|]. rewrite PF. cbn [fst snd Cert.File Cert.KeyFile].
  destruct M' as (E & Pc & Pk).
  repeat split; try apply Pc; try apply Pk; try exact E.
  - apply resolve_nonempty, Pc.
  - apply resolve_nonempty, Pk.
Qed.

Lemma plain_cert_path : plain Sample.cert_path.
Proof. split; [discriminate|]. cbv. intuition discriminate. Qed.

Lemma plain_key_path : plain Sample.key_path.
Proof. split; [discriminate|]. cbv. intuition discriminate. Qed.

Lemma Exec_require_trust_degraded_success_witness :
  exists cert e pre c k post,
    fst (run (Sample.prints Sample.untrusted) (Exec Sample.opts)) = (cert, Some e)
    /\ e = not_trusted (parseCA Sample.untrusted)
    /\ FileMatch Sample.untrusted pre c k post
    /\ parseFiles Sample.untrusted = (c, k)
    /\ Cert.File cert = resolve (dir (params_of Sample.opts)) c
    /\ Cert.KeyFile cert = resolve (dir (params_of Sample.opts)) k
    /\ Cert.File cert <> []
    /\ Cert.KeyFile cert <> [].
Proof.
  apply (Exec_require_trust_degraded_success
           Sample.opts (Sample.prints Sample.untrusted) Sample.untrusted).
  - reflexivity.
  - discriminate.
  - reflexivity.
  - exists (Sample.ca_text ++ str "Warning: the local CA is "),
      (str " in the system trust store!" ++ [nl] ++ Sample.file_text).
    reflexivity.
  - exists (Sample.ca_text ++ Sample.warn_text), Sample.cert_path,
      Sample.key_path, [nl].
    split; [reflexivity|]. split; [exact plain_cert_path | exact plain_key_path].
Defined.

(** C2: when the options leave the domain list empty, [Exec] is the
    immediate return of the zero certificate and [ErrNoDomains]; on every
    system it spawns no process. *)
Theorem Exec_no_domains (opts : list Opt) :
  domains (params_of opts) = [] ->
  Exec opts = Ret (Cert.zero, Some ErrNoDomains)
  /\ forall sys : system,
      run sys (Exec opts) = ((Cert.zero, Some ErrNoDomains), []).
Proof.
  intros H. rewrite (Exec_no_domains_eq opts H). split; reflexivity.
Qed.

Lemma Exec_no_domains_witness :
  Exec [Directory (str "/tmp/mkcert"); Domains []]
  = Ret (Cert.zero, Some ErrNoDomains)
  /\ forall sys : system,
      run sys (Exec [Directory (str "/tmp/mkcert"); Domains []])
      = ((Cert.zero, Some ErrNoDomains), []).
Proof.
  apply (Exec_no_domains [Directory (str "/tmp/mkcert"); Domains []]).
  reflexivity.
Defined.

(** C3: the parsed trust flag is false exactly when the output contains
    "not installed", whatever else it contains, and true exactly when it
    does not. *)
Theorem parseTrusted_not_installed (out : bytes) :
  (parseTrusted out = false <-> Substring (str "not installed") out)
  /\ (parseTrusted out = true <-> ~ Substring (str "not installed") out).
Proof.
  pose proof (parseTrusted_false out) as F. split; [exact F|].
  destruct (parseTrusted out); split; intros H.
  - intros S. apply F in S. discriminate.
  - reflexivity.
  - discriminate.
  - elim H. now apply F.
Qed.

(** C4: on a run whose output is parsed, with a working directory the
    File and KeyFile of the certificate are the parsed paths joined with
    the directory when they are relative and the parsed paths themselves
    when they are absolute; without a working directory they are the
    parsed paths. *)
Theorem Exec_paths_relative_to_directory
        (opts : list Opt) (sys : system) (out : bytes) :
  domains (params_of opts) <> [] ->
  sys (command_line (params_of opts)) = (out, None) ->
  (dir (params_of opts) <> [] ->
   (Filepath.IsAbs (fst (parseFiles out)) = false ->
    Cert.File (fst (fst (run sys (Exec opts))))
    = Filepath.Join [dir (params_of opts); fst (parseFiles out)])
   /\ (Filepath.IsAbs (fst (parseFiles out)) = true ->
       Cert.File (fst (fst (run sys (Exec opts)))) = fst (parseFiles out))
   /\ (Filepath.IsAbs (snd (parseFiles out)) = false ->
       Cert.KeyFile (fst (fst (run sys (Exec opts))))
       = Filepath.Join [dir (params_of opts); snd (parseFiles out)])
   /\ (Filepath.IsAbs (snd (parseFiles out)) = true ->
       Cert.KeyFile (fst (fst (run sys (Exec opts)))) = snd (parseFiles out)))
  /\ (dir (params_of opts) = [] ->
      Cert.File (fst (fst (run sys (Exec opts)))) = fst (parseFiles out)
      /\ Cert.KeyFile (fst (fst (run sys (Exec opts)))) = snd (parseFiles out)).
Proof.
  intros D S. rewrite (Exec_run_success opts sys out D S).
  cbn [fst snd Cert.File Cert.KeyFile]. unfold resolve.
  destruct (dir (params_of opts)) as [|d0 d].
  - split; [congruence|]. intros _. split; reflexivity.
  - split; [|discriminate]. intros _.
    repeat split; intros ->; reflexivity.
Qed.

Lemma Exec_paths_relative_to_directory_witness :
  Cert.File (fst (fst (run (Sample.prints Sample.trusted) (Exec Sample.opts))))
  = str "/tmp/mkcert/localhost.pem"
  /\ Cert.KeyFile (fst (fst (run (Sample.prints Sample.trusted) (Exec Sample.opts))))
     = str "/tmp/mkcert/localhost-key.pem".
Proof.
  assert (D : domains (params_of Sample.opts) <> []) by discriminate.
  assert (S : Sample.prints Sample.trusted (command_line (params_of Sample.opts))
              = (Sample.trusted, None)) by reflexivity.
  assert (N : dir (params_of Sample.opts) <> []) by discriminate.
  destruct (Exec_paths_relative_to_directory
              Sample.opts (Sample.prints Sample.trusted) Sample.trusted D S)
    as [W _].
  destruct (W N) as (F & _ & K & _).
  split.
  - rewrite F; vm_compute; reflexivity.
  - rewrite K; vm_compute; reflexivity.
Defined.

(** C5 (the code at a failing run): when mkcert exits with a non-zero
    status, [Exec] returns normally, with the zero certificate and an
    error that is a plain message, "mkcert: exit status N": the message
    has no stderr text, the error wraps nothing, and [errors.As] finds no
    [*exec.ExitError] in it. *)
Theorem Exec_exit_error_not_recoverable
        (d : bytes) (ds : list bytes) (status : Z) (stderr out : bytes) :
  fst (run (Sample.fails status stderr out) (Exec [Domains (d :: ds)]))
  = (Cert.zero, Some (errorString (str "mkcert: exit status " ++ itoa status)))
  /\ Unwrap (errorString (str "mkcert: exit status " ++ itoa status)) = None
  /\ As_ExitError (errorString (str "mkcert: exit status " ++ itoa status)) = None.
Proof.
  assert (D : domains (params_of [Domains (d :: ds)]) <> []) by discriminate.
  rewrite (Exec_run_failure [Domains (d :: ds)] (Sample.fails status stderr out)
             out (ExitError status stderr) D eq_refl).
  repeat split.
Qed.

(** C6: [parseFiles] returns the groups of the first match of the
    pattern: the match that starts leftmost and, there, has the shortest
    certificate path and then the shortest key path; when the output has
    no match it returns the empty string twice. *)
Theorem parseFiles_first_match (out : bytes) :
  (exists pre c k post,
      FileMatch out pre c k post
      /\ (forall pre' c' k' post',
             FileMatch out pre' c' k' post' ->
             lex3 (length pre) (length c) (length k)
                  (length pre') (length c') (length k'))
      /\ parseFiles out = (c, k))
  \/ ((forall pre c k post, ~ FileMatch out pre c k post)
      /\ parseFiles out = ([], [])).
Proof.
  unfold parseFiles.
  destruct (find_first (match_here fileRe) out) as [[suf [s' cs]]|] eqn:E.
  - left. destruct (FindSubmatch_fileRe_Some _ _ _ _ E)
      as (pre & c & k & M & Min & ->).
    exists pre, c, k, s'. repeat split; try apply M. exact Min.
  - right. destruct (FindSubmatch_fileRe_None _ E) as [N ->].
    split; [exact N | reflexivity].
Qed.

(** C7: on a run whose output is parsed and has no match of the CA
    pattern, the CARoot of the certificate is empty, and the error is nil
    unless trust is required and the output says "not installed". *)
Theorem Exec_no_CA_line (opts : list Opt) (sys : system) (out : bytes) :
  domains (params_of opts) <> [] ->
  sys (command_line (params_of opts)) = (out, None) ->
  (forall pre c post, ~ CAMatch out pre c post) ->
  Cert.CARoot (fst (fst (run sys (Exec opts)))) = []
  /\ (snd (fst (run sys (Exec opts))) = None
      <-> ~ (parseTrusted out = false /\ requireTrust (params_of opts) = true)).
Proof.
  intros D S N. rewrite (Exec_run_success opts sys out D S).
  cbn [fst snd Cert.CARoot]. split; [now apply parseCA_no_match|].
  destruct (parseTrusted out), (requireTrust (params_of opts));
    cbn [negb andb]; split; intros H; try reflexivity;
    try discriminate; try (intros [? ?]; discriminate).
  elim H. now split.
Qed.

Lemma Exec_no_CA_line_witness :
  Cert.CARoot (fst (fst (run (Sample.prints Sample.bare) (Exec Sample.opts)))) = []
  /\ (snd (fst (run (Sample.prints Sample.bare) (Exec Sample.opts))) = None
      <-> ~ (parseTrusted Sample.bare = false
             /\ requireTrust (params_of Sample.opts) = true)).
Proof.
  apply (Exec_no_CA_line Sample.opts (Sample.prints Sample.bare) Sample.bare).
  - discriminate.
  - reflexivity.
  - apply no_CAMatch_dec. vm_compute. reflexivity.
Defined.

(** C8: with a non-empty domain list, the one command [Exec] runs is
    mkcert with the -cert-file flag and its path when a certificate file
    is given, then the -key-file flag and its path when a key file is
    given, then the domains in the order given, in the given directory. *)
Theorem Exec_command_line (opts : list Opt) :
  domains (params_of opts) <> [] ->
  (exists k, Exec opts = CombinedOutput (command_line (params_of opts)) k)
  /\ forall sys : system,
      snd (run sys (Exec opts)) = [command_line (params_of opts)].
Proof.
  intros D. split.
  - destruct (Exec_spawns opts D) as (k & E & _). now exists k.
  - intros sys.
    destruct (sys (command_line (params_of opts))) as [out [e|]] eqn:S.
    + now rewrite (Exec_run_failure opts sys out e D S).
    + now rewrite (Exec_run_success opts sys out D S).
Qed.

Lemma Exec_command_line_witness :
  snd (run (Sample.prints Sample.trusted)
           (Exec [Domains [str "localhost"; str "::1"];
                  CertFile (str "cert.pem"); KeyFile (str "key.pem");
                  Directory (str "/tmp/mkcert")]))
  = [ {| Path := str "mkcert";
         Args := [str "mkcert"; str "-cert-file"; str "cert.pem";
                  str "-key-file"; str "key.pem"; str "localhost"; str "::1"];
         Dir := str "/tmp/mkcert" |} ].
Proof.
  refine (proj2 (Exec_command_line
                   [Domains [str "localhost"; str "::1"];
                    CertFile (str "cert.pem"); KeyFile (str "key.pem");
                    Directory (str "/tmp/mkcert")] _)
                (Sample.prints Sample.trusted)).
  discriminate.
Defined.

(** C9: on a run whose output is parsed and has no match of the
    certificate/key pattern, with a working directory the File and KeyFile
    of the certificate are not empty: both are the cleaned working
    directory, which is the join of the directory and the empty string. *)
Theorem Exec_no_file_line_in_directory
        (opts : list Opt) (sys : system) (out : bytes) :
  domains (params_of opts) <> [] ->
  dir (params_of opts) <> [] ->
  sys (command_line (params_of opts)) = (out, None) ->
  (forall pre c k post, ~ FileMatch out pre c k post) ->
  parseFiles out = ([], [])
  /\ Cert.File (fst (fst (run sys (Exec opts)))) = Filepath.Clean (dir (params_of opts))
  /\ Cert.KeyFile (fst (fst (run sys (Exec opts)))) = Filepath.Clean (dir (params_of opts))
  /\ Filepath.Join [dir (params_of opts); []] = Filepath.Clean (dir (params_of opts))
  /\ Cert.File (fst (fst (run sys (Exec opts)))) <> []
  /\ Cert.KeyFile (fst (fst (run sys (Exec opts)))) <> [].
Proof.
  intros D N S M. rewrite (Exec_run_success opts sys out D S).
  rewrite (parseFiles_no_match out M).
  cbn [fst snd Cert.File Cert.KeyFile]. unfold resolve.
  destruct (dir (params_of opts)) as [|d0 d] eqn:E; [congruence|].
  rewrite IsAbs_nil. pose proof (Join_dir_empty (d0 :: d) N) as J.
  repeat split; try exact J; apply Join_dir_nonempty; exact N.
Qed.

Lemma Exec_no_file_line_in_directory_witness :
  parseFiles Sample.bare = ([], [])
  /\ Cert.File (fst (fst (run (Sample.prints Sample.bare) (Exec Sample.opts))))
     = Filepath.Clean (dir (params_of Sample.opts))
  /\ Cert.KeyFile (fst (fst (run (Sample.prints Sample.bare) (Exec Sample.opts))))
     = Filepath.Clean (dir (params_of Sample.opts))
  /\ Filepath.Join [dir (params_of Sample.opts); []]
     = Filepath.Clean (dir (params_of Sample.opts))
  /\ Cert.File (fst (fst (run (Sample.prints Sample.bare) (Exec Sample.opts)))) <> []
  /\ Cert.KeyFile (fst (fst (run (Sample.prints Sample.bare) (Exec Sample.opts)))) <> [].
Proof.
  apply (Exec_no_file_line_in_directory
           Sample.opts (Sample.prints Sample.bare) Sample.bare).
  - discriminate.
  - discriminate.
  - reflexivity.
  - apply no_FileMatch_dec. vm_compute. reflexivity.
Defined.

(** C10: options are applied from first to last, and the parameters that
    [Exec] works with hold, for each field, the value of the last option
    that sets it (the zero value when none does): a later [Domains]
    replaces the list of an earlier one.  [Exec] behaves as on the five
    last settings alone, and every run of [Exec] is the run that the last
    settings determine: no command without a last domain list, otherwise
    the command line of the last settings, the certificate with the last
    domain list and paths resolved against the last directory, and the
    error of an untrusted CA when the last trust setting requires trust. *)
Theorem Exec_options_last_wins (cs : list option_call) :
  (forall (o : Opt) (opts : list Opt) (p : params),
      apply_opts (o :: opts) p = apply_opts opts (o p))
  /\ params_of (map option_of cs)
     = {| dir := last_setting sets_dir [] cs;
          certFile := last_setting sets_certFile [] cs;
          keyFile := last_setting sets_keyFile [] cs;
          domains := last_setting sets_domains [] cs;
          requireTrust := last_setting sets_requireTrust false cs |}
  /\ Exec (map option_of cs)
     = Exec [ Directory (last_setting sets_dir [] cs);
              CertFile (last_setting sets_certFile [] cs);
              KeyFile (last_setting sets_keyFile [] cs);
              Domains (last_setting sets_domains [] cs);
              RequireTrusted (last_setting sets_requireTrust false cs) ]
  /\ forall sys : system,
      run sys (Exec (map option_of cs))
      = match last_setting sets_domains [] cs with
        | [] => ((Cert.zero, Some ErrNoDomains), [])
        | _ :: _ =>
            (match sys (command_line (last_params cs)) with
             | (out, Some e) =>
                 (Cert.zero, Some (errorString (str "mkcert: " ++ Error e)))
             | (out, None) =>
                 ({| Cert.CARoot := parseCA out;
                     Cert.Trusted := parseTrusted out;
                     Cert.Domains := last_setting sets_domains [] cs;
                     Cert.File :=
                       resolve (last_setting sets_dir [] cs) (fst (parseFiles out));
                     Cert.KeyFile :=
                       resolve (last_setting sets_dir [] cs) (snd (parseFiles out)) |},
                  if negb (parseTrusted out)
                     && last_setting sets_requireTrust false cs
                  then Some (not_trusted (parseCA out))
                  else None)
             end,
             [command_line (last_params cs)])
        end.
Proof.
  split; [reflexivity|].
  assert (E : params_of (map option_of cs) = last_params cs)
    by apply (apply_opts_calls cs zero_params).
  split; [exact E|].
  split; [apply Exec_params; rewrite E; reflexivity|].
  intros sys.
  destruct (last_setting sets_domains [] cs) as [|d ds] eqn:D.
  - rewrite Exec_no_domains_eq; [reflexivity|].
    rewrite E. exact D.
  - assert (N : domains (params_of (map option_of cs)) <> [])
      by (rewrite E; cbn [domains last_params]; rewrite D; discriminate).
    destruct (sys (command_line (last_params cs))) as [out [e|]] eqn:S.
    + rewrite (Exec_run_failure _ sys out e N); rewrite E; [reflexivity | exact S].
    + rewrite (Exec_run_success _ sys out N); rewrite E; [|exact S].
      cbn [dir domains requireTrust last_params]. rewrite D. reflexivity.
Qed.

(** * Part IV: further properties *)

Import Props.

(** ** Occurrences of the fixed phrases *)

Lemma prefix_split (a b x y : bytes) :
  a ++ x = b ++ y -> (length a <= length b)%nat ->
  exists p, b = a ++ p /\ x = p ++ y.
Proof.
  revert b. induction a as [|c a IH]; intros b E L.
  - exists b. now split.
  - destruct b as [|c' b]; [cbn in L; lia|].
    cbn [app] in E. injection E as -> E. cbn [length] in L.
    destruct (IH b E ltac:(lia)) as (p & -> & ->). now exists p.
Qed.

Lemma unbordered_spec (l : bytes) (j : nat) :
  unbordered l = true -> (0 < j < length l)%nat ->
  BytesPkg.HasPrefix l (skipn j l) = false.
Proof.
  unfold unbordered. rewrite forallb_forall. intros H J.
  apply negb_true_iff, H, in_seq. lia.
Qed.

(** An earlier occurrence of an unbordered phrase lies before the later
    one. *)
Lemma occurrence_inside (l a b x y : bytes) :
  unbordered l = true ->
  a ++ l ++ x = b ++ l ++ y -> (length a < length b)%nat ->
  Substring l b.
Proof.
  intros U E L.
  destruct (prefix_split a b _ _ E ltac:(lia)) as (p & -> & E1).
  rewrite length_app in L.
  destruct (Nat.le_gt_cases (length l) (length p)) as [Lp|Lp].
  - destruct (prefix_split l p _ _ E1 Lp) as (q & -> & _).
    now exists a, q.
  - exfalso. symmetry in E1.
    destruct (prefix_split p l _ _ E1 ltac:(lia)) as (q & El & E2).
    pose proof (f_equal (@length byte) El) as Ll. rewrite length_app in Ll.
    assert (Lq : (length q <= length l)%nat) by lia.
    symmetry in E2.
    destruct (prefix_split q l _ _ E2 Lq) as (r & Er & _).
    assert (P : BytesPkg.HasPrefix l q = true)
      by (apply HasPrefix_spec; now exists r).
    assert (S : skipn (length p) l = q).
    { rewrite El. rewrite skipn_app, skipn_all, Nat.sub_diag. reflexivity. }
    rewrite <- S in P.
    rewrite (unbordered_spec l (length p) U) in P; [discriminate|].
    split; lia.
Qed.

Lemma unbordered_fileL1 : unbordered fileL1 = true.
Proof. vm_compute. reflexivity. Qed.

Lemma unbordered_caL1 : unbordered caL1 = true.
Proof. vm_compute. reflexivity. Qed.

(** A text cut short before a double quote that it does not contain. *)
Lemma quote_after_prefix (c c' x y : bytes) :
  ~ In dq c -> c' ++ dq :: x = c ++ y -> (length c' < length c)%nat -> False.
Proof.
  intros N E L.
  destruct (prefix_split c' c _ _ E ltac:(lia)) as (p & -> & E1).
  destruct p as [|b p]; [rewrite length_app in L; cbn in L; lia|].
  cbn [app] in E1. injection E1 as <- _.
  apply N, in_or_app. right. now left.
Qed.

(** X1: [parseCA] returns the group of the first match of its pattern:
    the match that starts leftmost and, there, has the shortest group;
    when the output has no match it returns the empty string. *)
Theorem parseCA_first_match (out : bytes) :
  (exists pre c post,
      CAMatch out pre c post
      /\ (forall pre' c' post',
             CAMatch out pre' c' post' ->
             lex2 (length pre) (length c) (length pre') (length c'))
      /\ parseCA out = c)
  \/ ((forall pre c post, ~ CAMatch out pre c post) /\ parseCA out = []).
Proof.
  unfold parseCA.
  destruct (find_first (match_here caRe) out) as [[suf [s' cs]]|] eqn:E.
  - left. destruct (FindSubmatch_caRe_Some _ _ _ _ E)
      as (pre & c & whole & M & Min & ->).
    exists pre, c, s'. repeat split; try apply M. exact Min.
  - right. destruct (FindSubmatch_caRe_None _ E) as [N ->].
    split; [exact N | reflexivity].
Qed.

Lemma FindSubmatch_fileRe_line (pre c k post : bytes) :
  quotable c -> quotable k -> ~ Substring fileL1 pre ->
  FindSubmatch fileRe (pre ++ file_line c k ++ post) = [file_line c k; c; k].
Proof.
  intros (Pc & Qc) (Pk & Qk) NS.
  assert (M : FileMatch (pre ++ file_line c k ++ post) pre c k post)
    by (repeat split; try apply Pc; apply Pk).
  destruct (find_first (match_here fileRe) (pre ++ file_line c k ++ post))
    as [[suf [s' cs]]|] eqn:E.
  2: { destruct (FindSubmatch_fileRe_None _ E) as [N _]. elim (N _ _ _ _ M). }
  destruct (FindSubmatch_fileRe_Some _ _ _ _ E)
    as (pre0 & c0 & k0 & (E0 & _ & _) & Min & ->).
  unfold file_line in E0. rewrite <- !app_assoc in E0.
  symmetry in E0.
  destruct (Min pre c k post M) as [L|[L [Lc|[Lc Lk]]]].
  - elim NS. exact (occurrence_inside fileL1 pre0 pre _ _ unbordered_fileL1 E0 L).
  - exfalso. destruct (app_eq_length _ _ _ _ E0 L) as [_ E1].
    apply app_inv_head in E1.
    exact (quote_after_prefix c c0 _ _ Qc E1 Lc).
  - destruct (app_eq_length _ _ _ _ E0 L) as [_ E1].
    apply app_inv_head in E1.
    destruct (app_eq_length _ _ _ _ E1 Lc) as [-> E2].
    apply app_inv_head in E2.
    destruct (Nat.eq_dec (length k0) (length k)) as [Ek|Nk].
    + destruct (app_eq_length _ _ _ _ E2 Ek) as [-> _]. reflexivity.
    + exfalso. apply (quote_after_prefix k k0 _ _ Qk E2). lia.
Qed.

Lemma FindSubmatch_caRe_line (pre c m post : bytes) :
  quotable c -> marker m -> ~ Substring caL1 pre ->
  exists whole, FindSubmatch caRe (pre ++ ca_line c m ++ post) = [whole; c].
Proof.
  intros (Pc & Qc) Hm NS.
  assert (M : CAMatch (pre ++ ca_line c m ++ post) pre c post)
    by (exists m; repeat split; try apply Pc; exact Hm).
  destruct (find_first (match_here caRe) (pre ++ ca_line c m ++ post))
    as [[suf [s' cs]]|] eqn:E.
  2: { destruct (FindSubmatch_caRe_None _ E) as [N _]. elim (N _ _ _ M). }
  destruct (FindSubmatch_caRe_Some _ _ _ _ E)
    as (pre0 & c0 & whole & (m0 & _ & E0 & _) & Min & ->).
  exists whole.
  unfold ca_line in E0. rewrite <- !app_assoc in E0.
  symmetry in E0.
  destruct (Min pre c post M) as [L|[L Lc]].
  - elim NS. exact (occurrence_inside caL1 pre0 pre _ _ unbordered_caL1 E0 L).
  - destruct (app_eq_length _ _ _ _ E0 L) as [_ E1].
    apply app_inv_head in E1.
    destruct (Nat.eq_dec (length c0) (length c)) as [Ec|Nc].
    + destruct (app_eq_length _ _ _ _ E1 Ec) as [-> _]. reflexivity.
    + exfalso. apply (quote_after_prefix c c0 _ _ Qc E1). lia.
Qed.

(** X2: a certificate/key line printed with quotable paths reads back:
    when the phrase that opens the line does not occur earlier in the
    output, [parseFiles] returns exactly the two quoted paths, whatever
    follows the line. *)
Theorem parseFiles_round_trip (pre c k post : bytes) :
  quotable c -> quotable k -> ~ Substring fileL1 pre ->
  parseFiles (pre ++ file_line c k ++ post) = (c, k).
Proof.
  intros Qc Qk NS. unfold parseFiles.
  rewrite (FindSubmatch_fileRe_line pre c k post Qc Qk NS).
  reflexivity.
Qed.

Lemma parseFiles_round_trip_witness :
  parseFiles (Sample.ca_text ++ file_line Sample.cert_path Sample.key_path
              ++ [nl])
  = (Sample.cert_path, Sample.key_path).
Proof.
  apply (parseFiles_round_trip Sample.ca_text Sample.cert_path Sample.key_path [nl]).
  - split; [exact plain_cert_path|]. cbv. intuition discriminate.
  - split; [exact plain_key_path|]. cbv. intuition discriminate.
  - intros S. apply Contains_spec in S. vm_compute in S. discriminate.
Defined.

(** X3: a CA line printed with a quotable path and one of the two markers
    reads back: when the phrase that opens the line does not occur earlier
    in the output, [parseCA] returns exactly the quoted path. *)
Theorem parseCA_round_trip (pre c m post : bytes) :
  quotable c -> marker m -> ~ Substring caL1 pre ->
  parseCA (pre ++ ca_line c m ++ post) = c.
Proof.
  intros Qc Hm NS. unfold parseCA.
  destruct (FindSubmatch_caRe_line pre c m post Qc Hm NS) as (whole & ->).
  reflexivity.
Qed.

Lemma parseCA_round_trip_witness :
  parseCA (str "Using the " ++ ca_line (str "/home/dev/mkcert") sparkles_utf8
           ++ Sample.file_text)
  = str "/home/dev/mkcert".
Proof.
  apply (parseCA_round_trip (str "Using the ") (str "/home/dev/mkcert")
                            sparkles_utf8 Sample.file_text).
  - split; [split; [discriminate|]|]; cbv; intuition discriminate.
  - now right.
  - intros S. apply Contains_spec in S. vm_compute in S. discriminate.
Defined.

(** ** Rooted paths *)

Lemma unwind_suffix (at_w : byte) (before : bytes) (dotdot : nat) :
  exists x,
    before = x ++ Filepath.unwind at_w before dotdot
    /\ ((dotdot <= length before)%nat ->
        (dotdot <= length (Filepath.unwind at_w before dotdot))%nat).
Proof.
  revert at_w. induction before as [|c before IH]; intros at_w.
  - exists []. split; [reflexivity | cbn; lia].
  - cbn [Filepath.unwind].
    destruct ((dotdot <? length (c :: before))%nat
              && negb (Filepath.IsPathSeparator at_w)) eqn:C.
    + destruct (IH c) as (x & E & L). exists (c :: x). split.
      * cbn [app]. now f_equal.
      * intros _. apply L. apply andb_true_iff in C. destruct C as [C _].
        apply Nat.ltb_lt in C. cbn [length] in C. lia.
    + exists []. split; [reflexivity | tauto].
Qed.

Lemma backtrack_prefix (buf : bytes) (dotdot : nat) :
  (dotdot < length buf)%nat ->
  exists tail,
    buf = Filepath.backtrack buf dotdot ++ tail
    /\ (dotdot <= length (Filepath.backtrack buf dotdot))%nat.
Proof.
  intros L. unfold Filepath.backtrack.
  destruct (rev buf) as [|c before] eqn:R.
  - apply (f_equal (@length byte)) in R. rewrite length_rev in R.
    cbn in R. lia.
  - pose proof (f_equal (@length byte) R) as Lr.
    rewrite length_rev in Lr. cbn [length] in Lr.
    destruct (unwind_suffix c before dotdot) as (x & E & Lu).
    exists (rev (c :: x)). split.
    + rewrite <- (rev_involutive buf), R. cbn [rev].
      rewrite E at 1. rewrite rev_app_distr, <- app_assoc. reflexivity.
    + rewrite length_rev. apply Lu. lia.
Qed.

Lemma clean_loop_rooted (fuel : nat) :
  forall (rest b : bytes),
  exists b', Filepath.clean_loop fuel true rest (slash :: b) 1 = slash :: b'.
Proof.
  induction fuel as [|fuel IH]; intros rest b; [now exists b|].
  destruct rest as [|c rest1]; [now exists b|].
  cbn [Filepath.clean_loop].
  destruct (Filepath.IsPathSeparator c); [apply IH|].
  destruct (Byte.eqb c dot && Filepath.end_or_sep rest1); [apply IH|].
  destruct (Byte.eqb c dot && Byte.eqb (hd slash rest1) dot
            && Filepath.end_or_sep (tl rest1)).
  - destruct (1 <? length (slash :: b))%nat eqn:L; [|apply IH].
    apply Nat.ltb_lt in L.
    destruct (backtrack_prefix (slash :: b) 1 L) as (tail & E & Lb).
    destruct (Filepath.backtrack (slash :: b) 1) as [|x bt];
      [cbn in Lb; lia|].
    cbn [app] in E. injection E as <- _. apply IH.
  - cbn [andb negb orb].
    destruct (Filepath.element (c :: rest1)) as [e rest'].
    destruct (negb (length (slash :: b) =? 1)%nat || false); apply IH.
Qed.

Lemma Clean_rooted (path : bytes) :
  Filepath.IsAbs path = true -> Filepath.IsAbs (Filepath.Clean path) = true.
Proof.
  destruct path as [|c t]; [discriminate|]. intros A.
  assert (c = slash).
  { apply HasPrefix_spec in A. destruct A as (rest & E). now injection E. }
  subst c. unfold Filepath.Clean, Filepath.Separator.
  change (Filepath.IsPathSeparator slash) with true. cbv beta iota zeta.
  cbn [tl].
  destruct (clean_loop_rooted (length (slash :: t)) t []) as (b' & ->).
  apply HasPrefix_spec. now exists b'.
Qed.

Lemma Join_rooted (d f : bytes) :
  Filepath.IsAbs d = true -> Filepath.IsAbs (Filepath.Join [d; f]) = true.
Proof.
  destruct d as [|c t]; [discriminate|]. intros A.
  cbn [Filepath.Join]. apply Clean_rooted.
  cbn [BytesPkg.Join app]. apply HasPrefix_spec in A.
  destruct A as (rest & E). injection E as -> _.
  apply HasPrefix_spec. now eexists.
Qed.

Lemma resolve_rooted (d f : bytes) :
  Filepath.IsAbs d = true -> Filepath.IsAbs (resolve d f) = true.
Proof.
  intros A. unfold resolve. destruct d as [|c t]; [discriminate|].
  destruct (Filepath.IsAbs f) eqn:F; [exact F | now apply Join_rooted].
Qed.

(** ** The results of Exec *)

(** X4: the Domains of the returned certificate are non-empty exactly
    when mkcert was run and reported no error, and then they are the
    requested domains and the error is nil or the error of an untrusted
    CA; otherwise the certificate is the zero value and the error is not
    nil. *)
Theorem Exec_result_kinds (opts : list Opt) (sys : system) :
  (Cert.Domains (fst (fst (run sys (Exec opts)))) <> []
   <-> domains (params_of opts) <> []
       /\ snd (sys (command_line (params_of opts))) = None)
  /\ (Cert.Domains (fst (fst (run sys (Exec opts)))) = [] ->
      fst (fst (run sys (Exec opts))) = Cert.zero
      /\ snd (fst (run sys (Exec opts))) <> None)
  /\ (Cert.Domains (fst (fst (run sys (Exec opts)))) <> [] ->
      Cert.Domains (fst (fst (run sys (Exec opts)))) = domains (params_of opts)
      /\ (snd (fst (run sys (Exec opts))) = None
          \/ (snd (fst (run sys (Exec opts)))
              = Some (not_trusted (Cert.CARoot (fst (fst (run sys (Exec opts))))))
              /\ Cert.Trusted (fst (fst (run sys (Exec opts)))) = false
              /\ requireTrust (params_of opts) = true))).
Proof.
  destruct (domains (params_of opts)) as [|d ds] eqn:D.
  - rewrite (Exec_no_domains_eq opts D). cbn [run fst snd Cert.Domains Cert.zero].
    repeat split; try congruence; try tauto; intros [H _]; congruence.
  - assert (N : domains (params_of opts) <> []) by (rewrite D; discriminate).
    destruct (sys (command_line (params_of opts))) as [out [e|]] eqn:S.
    + rewrite (Exec_run_failure opts sys out e N S).
      cbn [fst snd Cert.Domains Cert.zero].
      repeat split; try congruence; try tauto; intros [_ H]; discriminate.
    + rewrite (Exec_run_success opts sys out N S).
      cbn [fst snd Cert.Domains Cert.CARoot Cert.Trusted]. rewrite D.
      repeat split; try discriminate.
      destruct (parseTrusted out), (requireTrust (params_of opts));
        cbn [negb andb]; auto.
Qed.

(** X5: every error that [Exec] returns is a plain message: it wraps no
    other error, and [errors.As] finds no [*exec.ExitError] in it,
    whatever the options and whatever the command did. *)
Theorem Exec_errors_are_plain (opts : list Opt) (sys : system) (e : error) :
  snd (fst (run sys (Exec opts))) = Some e ->
  (exists msg, e = errorString msg)
  /\ Unwrap e = None /\ As_ExitError e = None.
Proof.
  assert (P : forall msg, (exists m, errorString msg = errorString m)
                          /\ Unwrap (errorString msg) = None
                          /\ As_ExitError (errorString msg) = None)
    by (intros msg; repeat split; now exists msg).
  destruct (domains (params_of opts)) as [|d ds] eqn:D.
  - rewrite (Exec_no_domains_eq opts D). cbn [run fst snd].
    intros H. injection H as <-. apply P.
  - assert (N : domains (params_of opts) <> []) by (rewrite D; discriminate).
    destruct (sys (command_line (params_of opts))) as [out [e'|]] eqn:S.
    + rewrite (Exec_run_failure opts sys out e' N S). cbn [fst snd].
      intros H. injection H as <-. apply P.
    + rewrite (Exec_run_success opts sys out N S). cbn [fst snd].
      destruct (negb (parseTrusted out) && requireTrust (params_of opts));
        [|discriminate].
      intros H. injection H as <-. apply P.
Qed.

Lemma Exec_errors_are_plain_witness :
  (exists msg, errorString (str "mkcert: exit status 2") = errorString msg)
  /\ Unwrap (errorString (str "mkcert: exit status 2")) = None
  /\ As_ExitError (errorString (str "mkcert: exit status 2")) = None.
Proof.
  apply (Exec_errors_are_plain Sample.opts (Sample.fails 2 (str "boom") [])).
  vm_compute. reflexivity.
Defined.

(** X6: with [Domains] as the only option, [Exec] runs mkcert with just
    the domains, in the current directory; when the command reports no
    error the result is what the three parsers find in the output, the
    paths unchanged, and there is no error, trusted CA or not. *)
Theorem Exec_domains_only (ds : list bytes) (sys : system) (out : bytes) :
  ds <> [] ->
  sys {| Path := str "mkcert"; Args := str "mkcert" :: ds; Dir := [] |}
  = (out, None) ->
  run sys (Exec [Domains ds])
  = (({| Cert.CARoot := parseCA out;
         Cert.Trusted := parseTrusted out;
         Cert.Domains := ds;
         Cert.File := fst (parseFiles out);
         Cert.KeyFile := snd (parseFiles out) |}, None),
     [ {| Path := str "mkcert"; Args := str "mkcert" :: ds; Dir := [] |} ]).
Proof.
  intros N S.
  rewrite (Exec_run_success [Domains ds] sys out N S).
  cbn. rewrite andb_false_r. reflexivity.
Qed.

Lemma Exec_domains_only_witness :
  run (Sample.prints Sample.untrusted)
      (Exec [Domains [str "localhost"; str "::1"; str "127.0.0.1"]])
  = (({| Cert.CARoot := parseCA Sample.untrusted;
         Cert.Trusted := parseTrusted Sample.untrusted;
         Cert.Domains := [str "localhost"; str "::1"; str "127.0.0.1"];
         Cert.File := fst (parseFiles Sample.untrusted);
         Cert.KeyFile := snd (parseFiles Sample.untrusted) |}, None),
     [ {| Path := str "mkcert";
          Args := str "mkcert" :: [str "localhost"; str "::1"; str "127.0.0.1"];
          Dir := [] |} ]).
Proof.
  apply (Exec_domains_only [str "localhost"; str "::1"; str "127.0.0.1"]
                           (Sample.prints Sample.untrusted) Sample.untrusted).
  - discriminate.
  - reflexivity.
Defined.

(** X7: the CertFile and KeyFile options reach the result only through
    what mkcert prints: two runs with the same domains, directory and
    trust requirement that capture the same output return the same
    certificate and error, whatever their file overrides. *)
Theorem Exec_result_ignores_overrides
        (opts opts' : list Opt) (sys sys' : system) (out : bytes) :
  domains (params_of opts) <> [] ->
  domains (params_of opts') = domains (params_of opts) ->
  dir (params_of opts') = dir (params_of opts) ->
  requireTrust (params_of opts') = requireTrust (params_of opts) ->
  sys (command_line (params_of opts)) = (out, None) ->
  sys' (command_line (params_of opts')) = (out, None) ->
  fst (run sys' (Exec opts')) = fst (run sys (Exec opts)).
Proof.
  intros N D Dr R S S'.
  assert (N' : domains (params_of opts') <> []) by now rewrite D.
  rewrite (Exec_run_success opts sys out N S),
          (Exec_run_success opts' sys' out N' S').
  cbn [fst]. now rewrite D, Dr, R.
Qed.

Lemma Exec_result_ignores_overrides_witness :
  fst (run (Sample.prints Sample.bare)
           (Exec (CertFile (str "/etc/ssl/site.pem") :: Sample.opts)))
  = fst (run (Sample.prints Sample.bare) (Exec Sample.opts)).
Proof.
  apply (Exec_result_ignores_overrides
           Sample.opts (CertFile (str "/etc/ssl/site.pem") :: Sample.opts)
           (Sample.prints Sample.bare) (Sample.prints Sample.bare) Sample.bare);
    try reflexivity.
  discriminate.
Defined.

(** X8: when the command reports no error and the working directory is
    an absolute path, the File and KeyFile of the certificate are
    absolute paths, whatever the output contains. *)
Theorem Exec_paths_absolute (opts : list Opt) (sys : system) (out : bytes) :
  domains (params_of opts) <> [] ->
  sys (command_line (params_of opts)) = (out, None) ->
  Filepath.IsAbs (dir (params_of opts)) = true ->
  Filepath.IsAbs (Cert.File (fst (fst (run sys (Exec opts))))) = true
  /\ Filepath.IsAbs (Cert.KeyFile (fst (fst (run sys (Exec opts))))) = true.
Proof.
  intros N S A. rewrite (Exec_run_success opts sys out N S).
  cbn [fst Cert.File Cert.KeyFile]. split; now apply resolve_rooted.
Qed.

Lemma Exec_paths_absolute_witness :
  Filepath.IsAbs
    (Cert.File (fst (fst (run (Sample.prints Sample.bare) (Exec Sample.opts)))))
  = true
  /\ Filepath.IsAbs
       (Cert.KeyFile (fst (fst (run (Sample.prints Sample.bare) (Exec Sample.opts)))))
     = true.
Proof.
  apply (Exec_paths_absolute Sample.opts (Sample.prints Sample.bare) Sample.bare).
  - discriminate.
  - reflexivity.
  - reflexivity.
Defined.

(** X9: a transcript with a CA line and, later, a certificate/key line,
    both with quotable paths and neither opening phrase occurring
    earlier, gives a certificate with exactly the quoted CA directory and
    the quoted file paths, resolved against the working directory. *)
Theorem Exec_reads_transcript
        (opts : list Opt) (sys : system) (pre ca m mid c k post : bytes) :
  domains (params_of opts) <> [] ->
  sys (command_line (params_of opts))
  = (pre ++ ca_line ca m ++ mid ++ file_line c k ++ post, None) ->
  quotable ca -> marker m -> quotable c -> quotable k ->
  ~ Substring caL1 pre ->
  ~ Substring fileL1 (pre ++ ca_line ca m ++ mid) ->
  Cert.CARoot (fst (fst (run sys (Exec opts)))) = ca
  /\ Cert.File (fst (fst (run sys (Exec opts)))) = resolve (dir (params_of opts)) c
  /\ Cert.KeyFile (fst (fst (run sys (Exec opts)))) = resolve (dir (params_of opts)) k
  /\ Cert.Domains (fst (fst (run sys (Exec opts)))) = domains (params_of opts).
Proof.
  intros N S Qca Hm Qc Qk NC NF.
  rewrite (Exec_run_success opts sys _ N S).
  cbn [fst Cert.CARoot Cert.File Cert.KeyFile Cert.Domains].
  unfold parseCA, parseFiles.
  destruct (FindSubmatch_caRe_line pre ca m
              (mid ++ file_line c k ++ post) Qca Hm NC) as (whole & ->).
  replace (pre ++ ca_line ca m ++ mid ++ file_line c k ++ post)
    with ((pre ++ ca_line ca m ++ mid) ++ file_line c k ++ post)
    by (now rewrite <- !app_assoc).
  rewrite (FindSubmatch_fileRe_line _ c k post Qc Qk NF).
  repeat split.
Qed.

Lemma Exec_reads_transcript_witness :
  Cert.CARoot (fst (fst (run (Sample.prints Sample.untrusted)
                             (Exec [Domains [str "localhost"]]))))
  = str "/home/dev/.local/share/mkcert"
  /\ Cert.File (fst (fst (run (Sample.prints Sample.untrusted)
                              (Exec [Domains [str "localhost"]]))))
     = resolve (dir (params_of [Domains [str "localhost"]])) Sample.cert_path
  /\ Cert.KeyFile (fst (fst (run (Sample.prints Sample.untrusted)
                                 (Exec [Domains [str "localhost"]]))))
     = resolve (dir (params_of [Domains [str "localhost"]])) Sample.key_path
  /\ Cert.Domains (fst (fst (run (Sample.prints Sample.untrusted)
                                 (Exec [Domains [str "localhost"]]))))
     = domains (params_of [Domains [str "localhost"]]).
Proof.
  apply (Exec_reads_transcript
           [Domains [str "localhost"]] (Sample.prints Sample.untrusted)
           (str "Using the ") (str "/home/dev/.local/share/mkcert")
           sparkles_utf8 Sample.warn_text Sample.cert_path Sample.key_path [nl]).
  - discriminate.
  - reflexivity.
  - split; [split; [discriminate|]|]; cbv; intuition discriminate.
  - now right.
  - split; [exact plain_cert_path|]. cbv. intuition discriminate.
  - split; [exact plain_key_path|]. cbv. intuition discriminate.
  - intros S. apply Contains_spec in S. vm_compute in S. discriminate.
  - intros S. apply Contains_spec in S. vm_compute in S. discriminate.
Defined.

(** ** The order of options *)

Lemma settings_none (A : Type) (sel : option_call -> option A)
      (cs : list option_call) :
  (forall c, In c cs -> sel c = None) -> settings sel cs = [].
Proof.
  induction cs as [|c cs IH]; intros H; [reflexivity|].
  unfold settings in *. cbn [flat_map].
  rewrite (H c (or_introl eq_refl)). apply IH.
  intros c' I. apply H. now right.
Qed.

Lemma settings_short (A : Type) (sel : option_call -> option A) (f : field)
      (cs : list option_call) :
  (forall c, sel c <> None -> field_of c = f) ->
  NoDup (map field_of cs) ->
  (length (settings sel cs) <= 1)%nat.
Proof.
  intros F. induction cs as [|c cs IH]; intros N; [cbn; lia|].
  cbn [map] in N. inversion N as [|x l Nin N']; subst.
  unfold settings in *. cbn [flat_map].
  destruct (sel c) as [v|] eqn:E.
  - assert (Fc : field_of c = f) by (apply F; congruence).
    fold (settings sel cs). rewrite settings_none; [cbn; lia|].
    intros c' I. destruct (sel c') eqn:E'; [|reflexivity].
    exfalso. apply Nin. rewrite Fc, <- (F c') by congruence.
    now apply in_map.
  - cbn [app]. now apply IH.
Qed.

Lemma last_setting_perm (A : Type) (sel : option_call -> option A) (f : field)
      (d : A) (cs cs' : list option_call) :
  (forall c, sel c <> None -> field_of c = f) ->
  NoDup (map field_of cs) -> Permutation cs cs' ->
  last_setting sel d cs = last_setting sel d cs'.
Proof.
  intros F N P. unfold last_setting.
  assert (Ps : Permutation (settings sel cs) (settings sel cs'))
    by (unfold settings; now apply Permutation_flat_map).
  pose proof (settings_short A sel f cs F N) as L.
  destruct (settings sel cs) as [|v [|w l]] eqn:E.
  - apply Permutation_nil in Ps. now rewrite Ps.
  - apply Permutation_length_1_inv in Ps. now rewrite Ps.
  - cbn in L. lia.
Qed.

(** X10: options that set different fields can be given in any order:
    when no two options of a list set the same field, [Exec] behaves the
    same on every reordering of the list. *)
Theorem Exec_options_order (cs cs' : list option_call) :
  NoDup (map field_of cs) -> Permutation cs cs' ->
  params_of (map option_of cs') = params_of (map option_of cs)
  /\ Exec (map option_of cs') = Exec (map option_of cs).
Proof.
  intros N P.
  assert (E : params_of (map option_of cs') = params_of (map option_of cs)).
  { unfold params_of. rewrite !apply_opts_calls. cbn [dir certFile keyFile
      domains requireTrust zero_params].
    rewrite (last_setting_perm _ sets_dir f_dir [] cs cs'),
            (last_setting_perm _ sets_certFile f_certFile [] cs cs'),
            (last_setting_perm _ sets_keyFile f_keyFile [] cs cs'),
            (last_setting_perm _ sets_domains f_domains [] cs cs'),
            (last_setting_perm _ sets_requireTrust f_requireTrust false cs cs');
      try assumption; try reflexivity;
      intros [? | ? | ? | ? | ?] H; try reflexivity; now elim H. }
  split; [exact E | now apply Exec_params].
Qed.

Lemma Exec_options_order_witness :
  params_of (map option_of
               [call_Directory (str "/tmp/mkcert"); call_RequireTrusted true;
                call_Domains [str "localhost"]])
  = params_of (map option_of
                 [call_Domains [str "localhost"]; call_RequireTrusted true;
                  call_Directory (str "/tmp/mkcert")])
  /\ Exec (map option_of
             [call_Directory (str "/tmp/mkcert"); call_RequireTrusted true;
              call_Domains [str "localhost"]])
     = Exec (map option_of
               [call_Domains [str "localhost"]; call_RequireTrusted true;
                call_Directory (str "/tmp/mkcert")]).
Proof.
  apply (Exec_options_order
           [call_Domains [str "localhost"]; call_RequireTrusted true;
            call_Directory (str "/tmp/mkcert")]
           [call_Directory (str "/tmp/mkcert"); call_RequireTrusted true;
            call_Domains [str "localhost"]]).
  - repeat constructor; cbn; intuition discriminate.
  - apply Permutation_rev.
Defined.

(** ** The example programs *)

Import Program.

Example flag_Parse_samples :
  map flag_Parse
      [ []; [str "-b"; str ":8443"]; [str "--b=:8443"; str "x"];
        [str "-b"; str ":1"; str "-b=:2"]; [str "--"; str "-b"];
        [str "x"; str "-b"; str ":8443"];
        [str "-b"]; [str "-x"]; [str "---b"]; [str "-=b"];
        [str "-h"]; [str "--help"] ]
  = [ Parsed None []; Parsed (Some (str ":8443")) [];
      Parsed (Some (str ":8443")) [str "x"];
      Parsed (Some (str ":2")) []; Parsed None [str "-b"];
      Parsed None [str "x"; str "-b"; str ":8443"];
      ParseExit 2; ParseExit 2; ParseExit 2; ParseExit 2;
      ParseExit 0; ParseExit 0 ].
Proof. vm_compute. reflexivity. Qed.

Lemma cut_length (s : bytes) :
  (length (fst (cut s)) <= length s)%nat.
Proof.
  induction s as [|c s IH]; [cbn; lia|]. cbn [cut].
  destruct (Byte.eqb c equals); [cbn; lia|].
  destruct (cut s) as [n v]. cbn [fst length] in *. lia.
Qed.

Lemma parseOne_shorter (args : list bytes) (v : bytes) (rest : list bytes) :
  parseOne args = flag_b v rest -> (length rest < length args)%nat.
Proof.
  unfold parseOne. destruct args as [|s args]; [discriminate|].
  destruct s as [|c0 [|c1 s2]]; try discriminate.
  destruct (negb (Byte.eqb c0 minus)); [discriminate|].
  destruct (Byte.eqb c1 minus && (length (c0 :: c1 :: s2) =? 2)%nat);
    [discriminate|].
  destruct (if Byte.eqb c1 minus then s2 else c1 :: s2) as [|n0 tail];
    [discriminate|].
  destruct (Byte.eqb n0 minus || Byte.eqb n0 equals); [discriminate|].
  destruct (cut tail) as [n value].
  destruct (bytes_eqb (n0 :: n) (str "b")).
  - destruct value as [v'|]; [|destruct args as [|v' args]];
      intros H; try discriminate; injection H as <- <-; cbn [length]; lia.
  - destruct (bytes_eqb (n0 :: n) (str "help") || bytes_eqb (n0 :: n) (str "h"));
      discriminate.
Qed.

(** The bound of the loop of [flag.Parse] is never reached: every larger
    bound gives the same result. *)
Lemma parse_loop_enough (fuel : nat) :
  forall (b : option bytes) (args : list bytes),
    (length args <= fuel)%nat ->
    parse_loop (S fuel) b args = parse_loop fuel b args.
Proof.
  induction fuel as [|fuel IH]; intros b args L.
  - destruct args; [reflexivity | cbn in L; lia].
  - cbn [parse_loop]. destruct (parseOne args) as [v rest| | |] eqn:P;
      try reflexivity.
    apply parseOne_shorter in P. apply (IH (Some v) rest). lia.
Qed.


Lemma main_params (d : bytes) :
  params_of [Domains [str "localhost"]; RequireTrusted true; Directory d]
  = {| dir := d; certFile := []; keyFile := []; domains := [str "localhost"];
       requireTrust := true |}.
Proof. reflexivity. Qed.

Lemma main_Exec (w : world) :
  run (commands w)
      (Exec [Domains [str "localhost"]; RequireTrusted true; Directory (tmp w)])
  = ((match exec_error w with
      | None => certificate w
      | Some _ =>
          match snd (commands w (mkcert_localhost w)) with
          | Some _ => Cert.zero
          | None => certificate w
          end
      end, exec_error w),
     [mkcert_localhost w]).
Proof.
  unfold exec_error, certificate, output.
  assert (N : domains (params_of [Domains [str "localhost"]; RequireTrusted true;
                                  Directory (tmp w)]) <> []) by discriminate.
  destruct (commands w (mkcert_localhost w)) as [out [e|]] eqn:S.
  - rewrite (Exec_run_failure _ (commands w) out e N S). reflexivity.
  - rewrite (Exec_run_success _ (commands w) out N S). cbn [fst snd].
    rewrite main_params. cbn [dir domains requireTrust].
    destruct (parseTrusted out); reflexivity.
Qed.

(** The runs of the first variant. *)
Lemma perform_main000 (w : world) (args : list bytes) :
  perform w (Part000.main args)
  = match flag_Parse args with
    | ParseExit code => ([did_FlagParse args], Exited code)
    | Parsed b _ =>
        (did_FlagParse args :: fst (after_flags w b tail000),
         snd (after_flags w b tail000))
    end.
Proof.
  unfold Part000.main, after_flags, tail000. cbn [perform].
  destruct (flag_Parse args) as [b rest|code]; [|reflexivity]. cbv zeta.
  destruct (tempdir w [] (str "mkcert")) as [d [e|]] eqn:T; [reflexivity|].
  assert (Ed : d = tmp w) by (unfold tmp; now rewrite T). subst d.
  cbn [snd perform]. rewrite (main_Exec w).
  destruct (exec_error w) as [e|] eqn:X.
  - assert (P : As_ExitError e = None).
    { unfold exec_error in X.
      destruct (snd (commands w (mkcert_localhost w)));
        [|destruct (parseTrusted (output w))]; try discriminate;
        injection X as <-; reflexivity. }
    cbn [perform]. rewrite P. reflexivity.
  - unfold serving. cbn [perform].
    destruct (server w (bind_flag b) (Cert.File (certificate w))
                     (Cert.KeyFile (certificate w)) (str "."));
      reflexivity.
Qed.

(** The runs of the second variant. *)
Lemma perform_main001 (w : world) (args : list bytes) :
  perform w (Part001.main args)
  = match flag_Parse args with
    | ParseExit code => ([did_FlagParse args], Exited code)
    | Parsed b _ =>
        (did_FlagParse args :: fst (after_flags w b tail001),
         snd (after_flags w b tail001))
    end.
Proof.
  unfold Part001.main, after_flags, tail001. cbn [perform].
  destruct (flag_Parse args) as [b rest|code]; [|reflexivity]. cbv zeta.
  destruct (tempdir w [] (str "mkcert")) as [d [e|]] eqn:T; [reflexivity|].
  assert (Ed : d = tmp w) by (unfold tmp; now rewrite T). subst d.
  cbn [snd perform]. rewrite (main_Exec w).
  destruct (exec_error w) as [e|] eqn:X.
  - reflexivity.
  - unfold serving. cbn [perform].
    destruct (server w (bind_flag b) (Cert.File (certificate w))
                     (Cert.KeyFile (certificate w)) (str "."));
      reflexivity.
Qed.

Lemma exec_error_None (w : world) :
  exec_error w = None
  <-> snd (commands w (mkcert_localhost w)) = None
      /\ parseTrusted (output w) = true.
Proof.
  unfold exec_error.
  destruct (snd (commands w (mkcert_localhost w)));
    [|destruct (parseTrusted (output w))];
    split; try discriminate; try tauto; intros [? ?]; discriminate.
Qed.

Lemma In_serving (w : world) (bind : bytes) (a : action) :
  In a (fst (serving w bind)) ->
  a = did_ListenAndServeTLS bind (Cert.File (certificate w))
                            (Cert.KeyFile (certificate w)) (str ".")
  \/ exists e, a = did_Fatal [vError e].
Proof.
  unfold serving.
  destruct (server w bind (Cert.File (certificate w))
                   (Cert.KeyFile (certificate w)) (str ".")) as [e|];
    cbn [fst In]; intros H.
  - destruct H as [<-|[<-|[]]]; [now left | right; now exists e].
  - destruct H as [<-|[]]. now left.
Qed.

Lemma serving_serves (w : world) (bind : bytes) :
  In (did_ListenAndServeTLS bind (Cert.File (certificate w))
                            (Cert.KeyFile (certificate w)) (str "."))
     (fst (serving w bind)).
Proof.
  unfold serving.
  destruct (server w bind (Cert.File (certificate w))
                   (Cert.KeyFile (certificate w)) (str "."));
    now left.
Qed.

(** The server calls of a run after the flags: none unless the world is
    certified, and then the call with the configured address and the
    certificate. *)
Lemma after_flags_server_calls (w : world) (b : option bytes)
      (tail : error -> list action) :
  (forall e a, In a (tail e) -> external a = false) ->
  (serves (fst (after_flags w b tail)) <-> certified w)
  /\ forall addr certFile keyFile root,
      In (did_ListenAndServeTLS addr certFile keyFile root)
         (fst (after_flags w b tail)) ->
      addr = bind_flag b
      /\ certFile = Cert.File (certificate w)
      /\ keyFile = Cert.KeyFile (certificate w)
      /\ root = str ".".
Proof.
  intros Ht. unfold serves, certified, after_flags. rewrite <- exec_error_None.
  destruct (snd (tempdir w [] (str "mkcert"))) as [e|].
  - cbn [fst]. split.
    + split; [|intros [? _]; discriminate].
      intros (a & c & k & r & [H|[H|[]]]); discriminate.
    + intros a c k r [H|[H|[]]]; discriminate.
  - destruct (exec_error w) as [e|]; cbn [fst].
    + assert (N : forall a c k r,
                 ~ In (did_ListenAndServeTLS a c k r)
                      (did_TempDir [] (str "mkcert")
                       :: did_Command (mkcert_localhost w) :: tail e)).
      { intros a c k r [H|[H|H]]; try discriminate.
        apply Ht in H. discriminate. }
      split.
      * split; [|intros [_ ?]; discriminate].
        intros (a & c & k & r & H). elim (N _ _ _ _ H).
      * intros a c k r H. elim (N _ _ _ _ H).
    + split.
      * split; [now split|]. intros _.
        eexists _, _, _, _. do 4 right. apply serving_serves.
      * intros a c k r [H|[H|[H|[H|H]]]]; try discriminate.
        destruct (In_serving w _ _ H) as [E|[e' E]]; [|discriminate].
        injection E as -> -> -> ->. repeat split.
Qed.

Lemma tail000_internal (e : error) (a : action) :
  In a (tail000 e) -> external a = false.
Proof. intros [<-|[<-|[]]]; reflexivity. Qed.

Lemma tail001_internal (e : error) (a : action) :
  In a (tail001 e) -> external a = false.
Proof. intros [<-|[]]; reflexivity. Qed.

(** The server calls of a run that parses the flags and goes on as
    [after_flags] says. *)
Lemma flags_server_calls (w : world) (args : list bytes)
      (tail : error -> list action) (t : list action) :
  (forall e a, In a (tail e) -> external a = false) ->
  t = fst (match flag_Parse args with
           | ParseExit code => ([did_FlagParse args], Exited code)
           | Parsed b _ =>
               (did_FlagParse args :: fst (after_flags w b tail),
                snd (after_flags w b tail))
           end) ->
  (serves t <-> accepted args /\ certified w)
  /\ forall addr certFile keyFile root,
      In (did_ListenAndServeTLS addr certFile keyFile root) t ->
      (exists b rest, flag_Parse args = Parsed b rest /\ addr = bind_flag b)
      /\ certFile = Cert.File (certificate w)
      /\ keyFile = Cert.KeyFile (certificate w)
      /\ root = str ".".
Proof.
  intros Ht ->. unfold accepted.
  destruct (flag_Parse args) as [b rest|code]; cbn [fst].
  - destruct (after_flags_server_calls w b tail Ht) as [S A]. split.
    + split.
      * intros (a & c & k & r & [H|H]); [discriminate|].
        split; [now exists b, rest|]. apply S. now exists a, c, k, r.
      * intros [_ C]. apply S in C. destruct C as (a & c & k & r & H).
        exists a, c, k, r. now right.
    + intros a c k r [H|H]; [discriminate|].
      destruct (A _ _ _ _ H) as (-> & -> & -> & ->).
      repeat split. now exists b, rest.
  - split.
    + split.
      * intros (a & c & k & r & [H|[]]). discriminate.
      * intros [(b & rest & H) _]. discriminate.
    + intros a c k r [H|[]]. discriminate.
Qed.

(** X11: either variant starts the server exactly when the command line
    is accepted, the temporary directory was created, mkcert reported no
    error and its output does not say "not installed"; the server then
    listens on the address of the flag -b (localhost:12345 by default)
    with the File and KeyFile of the certificate, serving the current
    directory. *)
Theorem main_serves_when_certified
        (w : world) (args : list bytes) (t : list action) :
  t = fst (perform w (Part000.main args))
  \/ t = fst (perform w (Part001.main args)) ->
  (serves t <-> accepted args /\ certified w)
  /\ forall addr certFile keyFile root,
      In (did_ListenAndServeTLS addr certFile keyFile root) t ->
      (exists b rest, flag_Parse args = Parsed b rest /\ addr = bind_flag b)
      /\ certFile = resolve (tmp w) (fst (parseFiles (output w)))
      /\ keyFile = resolve (tmp w) (snd (parseFiles (output w)))
      /\ root = str ".".
Proof.
  intros [-> | ->].
  - apply (flags_server_calls w args tail000).
    + exact tail000_internal.
    + now rewrite perform_main000.
  - apply (flags_server_calls w args tail001).
    + exact tail001_internal.
    + now rewrite perform_main001.
Qed.

Lemma main_serves_when_certified_witness :
  (serves (fst (perform (sample_world Sample.trusted None) (Part000.main [])))
   <-> accepted [] /\ certified (sample_world Sample.trusted None))
  /\ forall addr certFile keyFile root,
      In (did_ListenAndServeTLS addr certFile keyFile root)
         (fst (perform (sample_world Sample.trusted None) (Part000.main []))) ->
      (exists b rest, flag_Parse [] = Parsed b rest /\ addr = bind_flag b)
      /\ certFile = resolve (tmp (sample_world Sample.trusted None))
                            (fst (parseFiles (output (sample_world Sample.trusted None))))
      /\ keyFile = resolve (tmp (sample_world Sample.trusted None))
                           (snd (parseFiles (output (sample_world Sample.trusted None))))
      /\ root = str ".".
Proof.
  apply (main_serves_when_certified (sample_world Sample.trusted None) []).
  left. reflexivity.
Defined.

(** X12: the first variant never logs the line "mkcert stderr:": the
    error of [Exec] never holds an [*exec.ExitError] for [errors.As] to
    find, so after logging the error the program exits at once. *)
Theorem main000_never_logs_stderr
        (w : world) (args : list bytes) (v : list value) :
  ~ In (did_Println (vString (str "mkcert stderr:") :: v))
       (fst (perform w (Part000.main args))).
Proof.
  rewrite perform_main000.
  destruct (flag_Parse args) as [b rest|code]; cbn [fst];
    [|intros [H|[]]; discriminate].
  intros [H|H]; [discriminate|]. revert H. unfold after_flags, tail000.
  destruct (snd (tempdir w [] (str "mkcert"))) as [e|].
  - intros [H|[H|[]]]; discriminate.
  - destruct (exec_error w) as [e|].
    + intros [H|[H|[H|[H|[]]]]]; discriminate.
    + intros [H|[H|[H|[H|H]]]]; try discriminate.
      destruct (In_serving w _ _ H) as [E|[e' E]]; discriminate.
Qed.


(** X14: when the temporary directory is an absolute path, the
    certificate and key files that either variant hands to the server
    are absolute paths, whatever mkcert printed. *)
Theorem main_serves_absolute_paths
        (w : world) (args : list bytes) (t : list action)
        (addr certFile keyFile root : bytes) :
  t = fst (perform w (Part000.main args))
  \/ t = fst (perform w (Part001.main args)) ->
  Filepath.IsAbs (tmp w) = true ->
  In (did_ListenAndServeTLS addr certFile keyFile root) t ->
  Filepath.IsAbs certFile = true /\ Filepath.IsAbs keyFile = true.
Proof.
  intros Ht A H.
  assert (S : certFile = Cert.File (certificate w)
              /\ keyFile = Cert.KeyFile (certificate w)).
  { destruct Ht as [-> | ->].
    - rewrite perform_main000 in H.
      destruct (proj2 (flags_server_calls w args tail000 _ tail000_internal
                         eq_refl) _ _ _ _ H) as (_ & -> & -> & _).
      now split.
    - rewrite perform_main001 in H.
      destruct (proj2 (flags_server_calls w args tail001 _ tail001_internal
                         eq_refl) _ _ _ _ H) as (_ & -> & -> & _).
      now split. }
  destruct S as [-> ->].
  cbn [certificate Cert.File Cert.KeyFile]. split; now apply resolve_rooted.
Qed.

Lemma main_serves_absolute_paths_witness :
  Filepath.IsAbs (str "/tmp/mkcert123/localhost.pem") = true
  /\ Filepath.IsAbs (str "/tmp/mkcert123/localhost-key.pem") = true.
Proof.
  apply (main_serves_absolute_paths
           (sample_world Sample.trusted None) [str "-b"; str "localhost:8443"]
           (fst (perform (sample_world Sample.trusted None)
                         (Part001.main [str "-b"; str "localhost:8443"])))
           (str "localhost:8443") _ _ (str ".")).
  - right. reflexivity.
  - reflexivity.
  - vm_compute. do 5 right. left. reflexivity.
Defined.
